(** * Folder Tree Viewer: the scan, the filter, check-state propagation and
      the text export of [crawler.py], embedded in Rocq.

    The Qt item model is embedded as a rose tree of column-0 items; the
    filesystem is an inductive tree that records what [os.stat] and
    [os.scandir] answer at every path.  Strings are UTF-8 byte strings, so
    the box-drawing connectors are the byte sequences Python encodes them
    to.  [str.lower] and the comparison of [QString]s, whose tables belong
    to Python and to Qt, are taken as a [Library]: the theorems on the
    program hold for every library; the round trip on the example
    directory and the examples, whose names are ASCII, run on the library
    for ASCII text. *)

From Stdlib Require Import String Ascii List Bool Arith ZArith Lia.
From Stdlib Require Import Permutation Sorted OrderedTypeEx.
Import ListNotations.

Set Warnings "-register-all".
Open Scope string_scope.
Open Scope bool_scope.
Open Scope nat_scope.
Open Scope list_scope.

(* ===================================================================== *)
(** * Strings: the Python operations the program uses *)
(* ===================================================================== *)

Module PyStr.

Local Open Scope string_scope.

(** What [str.lower()] does on ASCII text: [A-Z] is moved to [a-z].
    Used by the library for ASCII text only. *)
Definition lower_ascii (c : ascii) : ascii :=
  let n := nat_of_ascii c in
  if ((65 <=? n)%nat && (n <=? 90)%nat)%bool then ascii_of_nat (n + 32) else c.

Fixpoint lower (s : string) : string :=
  match s with
  | EmptyString => EmptyString
  | String c s' => String (lower_ascii c) (lower s')
  end.

(** Truthiness of a string: [not s] holds exactly for the empty one. *)
Definition is_empty (s : string) : bool :=
  match s with EmptyString => true | String _ _ => false end.

(** [sub in s]: substring test. *)
Fixpoint contains (sub s : string) : bool :=
  prefix sub s ||
  match s with
  | EmptyString => false
  | String _ s' => contains sub s'
  end.

(** What "contains as a substring" means, independently of the scan
    above. *)
Definition Substring (sub s : string) : Prop :=
  exists before after, s = before ++ sub ++ after.

Definition slash : ascii := "/"%char.

Fixpoint has_slash (s : string) : bool :=
  match s with
  | EmptyString => false
  | String c s' => Ascii.eqb c slash || has_slash s'
  end.

(** [os.path.basename] (POSIX): what follows the last slash. *)
Fixpoint basename (p : string) : string :=
  match p with
  | EmptyString => EmptyString
  | String c r =>
      if has_slash r then basename r
      else if Ascii.eqb c slash then r else p
  end.

Fixpoint ends_with_slash (s : string) : bool :=
  match s with
  | EmptyString => false
  | String c EmptyString => Ascii.eqb c slash
  | String _ s' => ends_with_slash s'
  end.

(** [os.path.join a b] (POSIX), the path [os.scandir] gives an entry. *)
Definition join (a b : string) : string :=
  match b with
  | String c _ =>
      if Ascii.eqb c slash then b
      else if is_empty a || ends_with_slash a then a ++ b
      else a ++ "/" ++ b
  | EmptyString =>
      if is_empty a || ends_with_slash a then a ++ b
      else a ++ "/" ++ b
  end.

(** ["\n".join(lines)] *)
Fixpoint join_lines (lines : list string) : string :=
  match lines with
  | [] => ""
  | [l] => l
  | l :: rest => l ++ String "010"%char (join_lines rest)
  end.

End PyStr.

(* ===================================================================== *)
(** * The item model *)
(* ===================================================================== *)

(** [QtCore.Qt.CheckState] *)
Inductive CheckState := Unchecked | PartiallyChecked | Checked.

Definition CheckState_eqb (a b : CheckState) : bool :=
  match a, b with
  | Unchecked, Unchecked | PartiallyChecked, PartiallyChecked
  | Checked, Checked => true
  | _, _ => false
  end.

(** A column-0 [QStandardItem]: its text, the [FULL_PATH_ROLE] data, the
    checkable flag, the check state and the rows appended below it.  The
    size and date columns are written by the scan and read by none of the
    operations below. *)
Inductive Item : Type := mkItem {
  text : string;
  full_path : option string;
  isCheckable : bool;
  checkState : CheckState;
  rows : list Item
}.

(** A freshly constructed [QStandardItem(text)]: not checkable, unchecked,
    no data, no rows. *)
Definition QStandardItem (t : string) : Item := mkItem t None false Unchecked [].

Definition hasChildren (it : Item) : bool :=
  match rows it with [] => false | _ :: _ => true end.

Definition setCheckState (it : Item) (s : CheckState) : Item :=
  mkItem (text it) (full_path it) (isCheckable it) s (rows it).

Definition setRows (it : Item) (rs : list Item) : Item :=
  mkItem (text it) (full_path it) (isCheckable it) (checkState it) rs.

(** The rows below the invisible root item. *)
Definition Model := list Item.

(** A [QModelIndex] of column 0 is the list of row numbers leading from
    the invisible root to the item; the empty list is the invalid index,
    which stands for the root. *)
Definition Index := list nat.

Fixpoint itemFromIndex (m : list Item) (ix : Index) : option Item :=
  match ix with
  | [] => None
  | r :: ix' =>
      match nth_error m r with
      | None => None
      | Some it =>
          match ix' with
          | [] => Some it
          | _ :: _ => itemFromIndex (rows it) ix'
          end
      end
  end.

(* ===================================================================== *)
(** * The library functions the program calls *)
(* ===================================================================== *)

(** Two functions of Python and Qt that the program calls and whose
    character tables are no part of it:
    - [str_lower s] is [s.lower()];
    - [qstring_less a b] is [QString::compare(a, b, Qt::CaseSensitive) < 0],
      the test [QSortFilterProxyModel.lessThan] makes on two display
      texts.
    Of [str.lower] one fact is used: it gives the empty string for the
    empty string only. *)
Class Library := {
  str_lower : string -> string;
  qstring_less : string -> string -> bool;
  str_lower_empty : forall s, str_lower s = "" <-> s = ""
}.

Section Program.
Context {L : Library}.

(* ===================================================================== *)
(** * FolderFilterProxyModel *)
(* ===================================================================== *)

(** The body of [filterAcceptsRow] once the row has been resolved to its
    item: the empty filter accepts, a matching text accepts, and otherwise
    the rows below are tried in order. *)
Fixpoint row_accepted (filter_text : string) (it : Item) {struct it} : bool :=
  if PyStr.is_empty filter_text then true
  else
    match it with
    | mkItem item_text _ _ _ kids =>
        if negb (PyStr.is_empty item_text)
           && PyStr.contains filter_text (str_lower item_text)
        then true
        else
          (fix any_row (l : list Item) : bool :=
             match l with
             | [] => false
             | child :: l' =>
                 if row_accepted filter_text child then true else any_row l'
             end) kids
    end.

(** Whether the text of an item matches the stored filter text. *)
Definition text_matches (filter_text : string) (it : Item) : bool :=
  negb (PyStr.is_empty (text it))
  && PyStr.contains filter_text (str_lower (text it)).

(** [filterAcceptsRow source_row source_parent_index] over a source
    model. *)
Definition filterAcceptsRow (filter_text : string) (source_model : Model)
    (source_row : nat) (source_parent_index : Index) : bool :=
  if PyStr.is_empty filter_text then true
  else
    match itemFromIndex source_model (source_parent_index ++ [source_row])%list with
    | None => false
    | Some it => row_accepted filter_text it
    end.

(** [set_filter_text] stores the lowered text; [is_visible] is the filter
    a query typed by the user installs. *)
Definition set_filter_text (t : string) : string := str_lower t.

Definition is_visible (n : Item) (query : string) : bool :=
  row_accepted (set_filter_text query) n.

(** [d] lies strictly below [a]. *)
Inductive descendant : Item -> Item -> Prop :=
| desc_row : forall d a, In d (rows a) -> descendant d a
| desc_below : forall d c a, In c (rows a) -> descendant d c -> descendant d a.

(** ** [filterAcceptsRow] on the source model

    The method as the source writes it, on row numbers and indices: it
    reaches the model through [index], [data], [hasChildren] and
    [rowCount] only.  A computation that uses the model returns it next to
    its result; [fuel] bounds the depth of the recursion, and [None] is
    the answer of a run that used it up. *)
Definition Reads (A : Type) : Type := Model -> A * Model.

Definition ret {A : Type} (a : A) : Reads A := fun m => (a, m).

Definition bind {A B : Type} (c : Reads A) (k : A -> Reads B) : Reads B :=
  fun m => let (a, m') := c m in k a m'.

Definition model_isValid (ix : Index) : Reads bool :=
  fun m => (match itemFromIndex m ix with Some _ => true | None => false end, m).

Definition model_data (ix : Index) : Reads string :=
  fun m => (match itemFromIndex m ix with Some it => text it | None => "" end, m).

Definition model_hasChildren (ix : Index) : Reads bool :=
  fun m => (match itemFromIndex m ix with
            | Some it => hasChildren it
            | None => false
            end, m).

Definition model_rowCount (ix : Index) : Reads nat :=
  fun m => (match itemFromIndex m ix with
            | Some it => length (rows it)
            | None => 0
            end, m).

Fixpoint filterAcceptsRow_reads (fuel : nat) (filter_text : string)
    (source_row : nat) (source_parent_index : Index) {struct fuel}
    : Reads (option bool) :=
  match fuel with
  | 0 => ret None
  | S fuel' =>
      if PyStr.is_empty filter_text then ret (Some true)
      else
        let source_index := source_parent_index ++ [source_row] in
        bind (model_isValid source_index) (fun valid =>
        if negb valid then ret (Some false)
        else
          bind (model_data source_index) (fun item_text =>
          if negb (PyStr.is_empty item_text)
             && PyStr.contains filter_text (str_lower item_text)
          then ret (Some true)
          else
            bind (model_hasChildren source_index) (fun has =>
            if has then
              bind (model_rowCount source_index) (fun n =>
              (fix each (l : list nat) : Reads (option bool) :=
                 match l with
                 | [] => ret (Some false)
                 | i :: l' =>
                     bind (filterAcceptsRow_reads fuel' filter_text i
                             source_index)
                          (fun r =>
                             match r with
                             | Some true => ret (Some true)
                             | Some false => each l'
                             | None => ret None
                             end)
                 end) (seq 0 n))
            else ret (Some false))))
  end.

(** The number of levels of a tree. *)
Fixpoint height (it : Item) : nat :=
  match it with
  | mkItem _ _ _ _ kids =>
      S ((fix highest (l : list Item) : nat :=
            match l with
            | [] => 0
            | k :: l' => Nat.max (height k) (highest l')
            end) kids)
  end.

(** ** The proxy view

    A proxy row remembers the source row it maps to and the source item.
    Below an accepted row the proxy shows the accepted rows, and it shows
    them sorted: [init_ui] calls [tree_view.setSortingEnabled(True)], so
    the view sorts its model by the column and order of the header's sort
    indicator, column 0 in descending order, with a stable sort on the
    display texts. *)
Inductive ProxyItem : Type :=
  PNode (source_row : nat) (source_item : Item) (proxy_rows : list ProxyItem).

(** [mapToSource]: the source row and the source item of a proxy row. *)
Definition source_row_of (p : ProxyItem) : nat :=
  match p with PNode r _ _ => r end.

Definition source_item_of (p : ProxyItem) : Item :=
  match p with PNode _ it _ => it end.

Section ViewOrder.
Context {A : Type} (display : A -> string).

(** [x] is put behind the rows whose text is greater, and in front of the
    others: rows with equal texts keep their order. *)
Fixpoint insert_descending (x : A) (l : list A) : list A :=
  match l with
  | [] => [x]
  | y :: l' =>
      if qstring_less (display x) (display y)
      then y :: insert_descending x l'
      else x :: y :: l'
  end.

Fixpoint sort_descending (l : list A) : list A :=
  match l with
  | [] => []
  | x :: l' => insert_descending x (sort_descending l')
  end.
End ViewOrder.

(** The display text of a proxy row is that of its source item. *)
Definition proxy_display (p : ProxyItem) : string := text (source_item_of p).

Fixpoint mapFromSource (filter_text : string) (row : nat) (it : Item)
    {struct it} : ProxyItem :=
  match it with
  | mkItem _ _ _ _ kids =>
      PNode row it
        (sort_descending proxy_display
           ((fix below (i : nat) (l : list Item) : list ProxyItem :=
               match l with
               | [] => []
               | child :: l' =>
                   if row_accepted filter_text child
                   then mapFromSource filter_text i child :: below (S i) l'
                   else below (S i) l'
               end) 0 kids))
  end.

(** The accepted rows among [l], numbered from [i], before the proxy
    sorts them. *)
Fixpoint accepted_rows_from (filter_text : string) (i : nat) (l : list Item)
    : list ProxyItem :=
  match l with
  | [] => []
  | child :: l' =>
      if row_accepted filter_text child
      then mapFromSource filter_text i child
           :: accepted_rows_from filter_text (S i) l'
      else accepted_rows_from filter_text (S i) l'
  end.

(** The proxy rows shown for the source rows [l]. *)
Definition proxy_rows_for (filter_text : string) (l : list Item)
    : list ProxyItem :=
  sort_descending proxy_display (accepted_rows_from filter_text 0 l).

(** The top-level rows of the proxy model. *)
Definition proxy_model (filter_text : string) (m : Model) : list ProxyItem :=
  proxy_rows_for filter_text m.

(* ===================================================================== *)
(** * The text export *)
(* ===================================================================== *)

Definition connector_last : string := "└─ ".
Definition connector_mid : string := "├─ ".
Definition indent_last : string := "   ".
Definition indent_mid : string := "│  ".

(** [generate_text_recursive_v2]: the lines appended to [output_lines] by
    one call.  The item is read from the source model, the rows are
    counted in the proxy. *)
Fixpoint generate_text_recursive_v2 (proxy_index : ProxyItem) (prefix : string)
    (is_last_sibling : bool) {struct proxy_index} : list string :=
  match proxy_index with
  | PNode _ item prows =>
      if isCheckable item && CheckState_eqb (checkState item) Checked then
        let item_text := text item in
        let connector := if is_last_sibling then connector_last else connector_mid in
        let prefix_for_children :=
          (prefix ++ (if is_last_sibling then indent_last else indent_mid))%string in
        let num_children := length prows in
        (prefix ++ connector ++ item_text)%string ::
        (fix rows_loop (row : nat) (l : list ProxyItem) : list string :=
           match l with
           | [] => []
           | child_proxy_index :: l' =>
               let is_last_child := row =? num_children - 1 in
               (generate_text_recursive_v2 child_proxy_index prefix_for_children
                  is_last_child ++ rows_loop (S row) l')%list
           end) 0 prows
      else []
  end.

(** The row loop shared by [copy_tree_to_clipboard] (over the top-level
    proxy rows) and by the recursive calls: row [row] of [num_rows] is the
    last one when [row = num_rows - 1]. *)
Fixpoint rows_loop (prefix : string) (num_rows row : nat) (l : list ProxyItem)
    : list string :=
  match l with
  | [] => []
  | proxy_index :: l' =>
      (generate_text_recursive_v2 proxy_index prefix (row =? num_rows - 1)
         ++ rows_loop prefix num_rows (S row) l')%list
  end.

(** [text_lines] of [copy_tree_to_clipboard]. *)
Definition text_lines (filter_text : string) (m : Model) : list string :=
  let top := proxy_model filter_text m in
  rows_loop "" (length top) 0 top.

(** [copy_tree_to_clipboard]: the text put on the clipboard, or [None]
    when [final_text] is empty and nothing is copied. *)
Definition copy_tree_to_clipboard (filter_text : string) (m : Model)
    : option string :=
  let final_text := PyStr.join_lines (text_lines filter_text m) in
  if PyStr.is_empty final_text then None else Some final_text.

(** ** The export, with the source index of every line

    The same traversal, recording next to each line the source index
    [mapToSource] resolves the emitting proxy index to.  Dropping the
    indices gives [text_lines] back (lemma [text_lines_indexed_lines]). *)
Fixpoint generate_indexed (source_parent : Index) (proxy_index : ProxyItem)
    (prefix : string) (is_last_sibling : bool) {struct proxy_index}
    : list (Index * string) :=
  match proxy_index with
  | PNode source_row item prows =>
      let source_index := (source_parent ++ [source_row])%list in
      if isCheckable item && CheckState_eqb (checkState item) Checked then
        let item_text := text item in
        let connector := if is_last_sibling then connector_last else connector_mid in
        let prefix_for_children :=
          (prefix ++ (if is_last_sibling then indent_last else indent_mid))%string in
        let num_children := length prows in
        (source_index, (prefix ++ connector ++ item_text)%string) ::
        (fix rows_loop (row : nat) (l : list ProxyItem) : list (Index * string) :=
           match l with
           | [] => []
           | child_proxy_index :: l' =>
               let is_last_child := row =? num_children - 1 in
               (generate_indexed source_index child_proxy_index
                  prefix_for_children is_last_child ++ rows_loop (S row) l')%list
           end) 0 prows
      else []
  end.

Fixpoint rows_loop_indexed (source_parent : Index) (prefix : string)
    (num_rows row : nat) (l : list ProxyItem) : list (Index * string) :=
  match l with
  | [] => []
  | proxy_index :: l' =>
      (generate_indexed source_parent proxy_index prefix (row =? num_rows - 1)
         ++ rows_loop_indexed source_parent prefix num_rows (S row) l')%list
  end.

Definition text_lines_indexed (filter_text : string) (m : Model)
    : list (Index * string) :=
  let top := proxy_model filter_text m in
  rows_loop_indexed [] "" (length top) 0 top.

(** The source indices of the emitted items, in output order. *)
Definition emitted_indices (filter_text : string) (m : Model) : list Index :=
  map fst (text_lines_indexed filter_text m).

(** What the export tests before it emits an item. *)
Definition emits (it : Item) : bool :=
  isCheckable it && CheckState_eqb (checkState it) Checked.

(* ===================================================================== *)
(** * The filesystem the scan reads *)
(* ===================================================================== *)

(** [os.stat_result], the two fields the scan reads. *)
Record stat_result := { st_mtime : Z; st_size : Z }.

(** An [os.DirEntry]: its name, [is_dir(follow_symlinks=False)], and the
    result of [stat(follow_symlinks=False)], [None] when it raises
    [OSError]. *)
Record DirEntry := {
  entry_name : string;
  entry_is_dir : bool;
  entry_stat : option stat_result
}.

(** What [os.scandir] does at a path: it lists the entries, or raises
    [PermissionError], or raises another exception (for instance
    [NotADirectoryError]). *)
Inductive ScandirOutcome (A : Type) : Type :=
| Listed (entries : list A)
| RaisesPermissionError
| RaisesOtherError.
#[global] Arguments Listed {A} entries.
#[global] Arguments RaisesPermissionError {A}.
#[global] Arguments RaisesOtherError {A}.

(** The filesystem at a path: the answer of [os.stat] ([None] when it
    raises) and the answer of [os.scandir], each listed entry coming with
    the filesystem at its own path. *)
Inductive Fs : Type :=
  FsAt (os_stat : option stat_result)
       (os_scandir : ScandirOutcome (DirEntry * Fs)).

(** ** [sorted(..., key=lambda e: (not e.is_dir(...), e.name.lower()))] *)

Definition sort_key (e : DirEntry) : bool * string :=
  (negb (entry_is_dir e), str_lower (entry_name e)).

(** Python's [<] on the key tuples: [False < True], then the strings by
    code point. *)
Definition key_ltb (k1 k2 : bool * string) : bool :=
  match fst k1, fst k2 with
  | false, true => true
  | true, false => false
  | _, _ => String.ltb (snd k1) (snd k2)
  end.

(** "Not after": the order [sorted] leaves any two elements in. *)
Definition key_le (k1 k2 : bool * string) : Prop := key_ltb k2 k1 = false.

Section Sorted.
Context {A : Type} (key : A -> bool * string).

Fixpoint insert_by_key (x : A) (l : list A) : list A :=
  match l with
  | [] => [x]
  | y :: l' =>
      if key_ltb (key y) (key x) then y :: insert_by_key x l'
      else x :: y :: l'
  end.

(** [sorted] is stable: an element stays in front of the later ones
    with an equal key. *)
Fixpoint sorted (l : list A) : list A :=
  match l with
  | [] => []
  | x :: l' => insert_by_key x (sorted l')
  end.
End Sorted.

(* ===================================================================== *)
(** * The scan: [add_folder_item_recursive] and [populate_tree] *)
(* ===================================================================== *)

Definition access_error_item (base_name : string) : Item :=
  mkItem (base_name ++ " [Access Error]")%string None false Unchecked [].

Definition os_error_item (name : string) : Item :=
  QStandardItem (name ++ " [OS Error]")%string.

Definition perm_denied_item : Item :=
  mkItem "[Contents Hidden - Permission Denied]" None false Unchecked [].

Definition scan_error_item : Item :=
  QStandardItem "[Error Scanning Contents]".

(** One turn of the loop over the sorted entries: the row appended to
    [item_name] for [entry], and the texts of the rows appended during
    that turn, in the order of the [appendRow] calls.  [below] is what the
    recursive call on [entry.path] appends, used for a directory only. *)
Definition scan_entry (current_path : string) (entry : DirEntry)
    (below : Item * list string) : Item * list string :=
  match entry_stat entry with
  | None =>
      let error_item := os_error_item (entry_name entry) in
      (error_item, [text error_item])
  | Some entry_stat =>
      let entry_path := PyStr.join current_path (entry_name entry) in
      if entry_is_dir entry then
        (mkItem (entry_name entry) (Some entry_path) true Checked [fst below],
         entry_name entry :: snd below)
      else
        (mkItem (entry_name entry) (Some entry_path) true Checked [],
         [entry_name entry])
  end.

(** [add_folder_item_recursive current_path parent_item]: the row it
    appends to [parent_item], with everything below it, and the texts of
    all rows in the order they were appended.  Every exception raised
    inside is caught inside, so the call always returns.

    The recursive calls are made on the listed entries before these are
    put in [sorted] order; each call reads only the filesystem below its
    own entry, so the result is that of looping over the sorted entries
    (lemma [add_folder_item_recursive_eq]). *)
Fixpoint add_folder_item_recursive (current_path : string) (fs : Fs)
    {struct fs} : Item * list string :=
  match fs with
  | FsAt os_stat os_scandir =>
      let base_name :=
        if PyStr.is_empty current_path then "Unknown"
        else PyStr.basename current_path in
      match os_stat with
      | None =>
          let item_name := access_error_item base_name in
          (item_name, [text item_name])
      | Some stat_info =>
          let appended : list (Item * list string) :=
            match os_scandir with
            | Listed entries =>
                let scanned :=
                  (fix each (l : list (DirEntry * Fs))
                     : list (DirEntry * (Item * list string)) :=
                     match l with
                     | [] => []
                     | (entry, at_entry) :: l' =>
                         (entry,
                          add_folder_item_recursive
                            (PyStr.join current_path (entry_name entry)) at_entry)
                         :: each l'
                     end) entries in
                map (fun eb => scan_entry current_path (fst eb) (snd eb))
                    (sorted (fun eb => sort_key (fst eb)) scanned)
            | RaisesPermissionError =>
                [(perm_denied_item, [text perm_denied_item])]
            | RaisesOtherError =>
                [(scan_error_item, [text scan_error_item])]
            end in
          (mkItem base_name (Some current_path) true Checked (map fst appended),
           base_name :: concat (map snd appended))
      end
  end.

(** The text of the row built for a path. *)
Definition base_name_of (current_path : string) : string :=
  if PyStr.is_empty current_path then "Unknown"
  else PyStr.basename current_path.

(** One turn of the loop, with the recursive call it makes. *)
Definition entry_row (current_path : string) (ef : DirEntry * Fs)
    : Item * list string :=
  scan_entry current_path (fst ef)
    (add_folder_item_recursive
       (PyStr.join current_path (entry_name (fst ef))) (snd ef)).

(** The loop of [add_folder_item_recursive] as the source writes it: sort
    the entries, then handle each, recursing into directories. *)
Definition scan_listing (current_path : string) (entries : list (DirEntry * Fs))
    : list (Item * list string) :=
  map (entry_row current_path) (sorted (fun ef => sort_key (fst ef)) entries).

(** Ascending case-insensitive name order between two listed entries. *)
Definition name_le (a b : DirEntry * Fs) : Prop :=
  String.leb (str_lower (entry_name (fst a)))
             (str_lower (entry_name (fst b))) = true.

(** [populate_tree root_folder]: [scan_successful] and the rows of the
    cleared model afterwards.  [add_folder_item_recursive] never raises,
    so the [except] branch, the only place that sets [scan_successful]
    to [False], is not taken. *)
Definition populate_tree (root_folder : string) (fs : Fs) : bool * Model :=
  let invisible_root := [fst (add_folder_item_recursive root_folder fs)] in
  let scan_successful := true in
  (scan_successful, invisible_root).

(** The texts of a tree in depth-first pre-order. *)
Fixpoint preorder (it : Item) : list string :=
  match it with
  | mkItem t _ _ _ kids =>
      t :: (fix over (l : list Item) : list string :=
              match l with
              | [] => []
              | k :: l' => preorder k ++ over l'
              end) kids
  end.

(* ===================================================================== *)
(** * Check-state propagation *)
(* ===================================================================== *)

(** The window state the handlers read and write. *)
Record Window := {
  block_item_changed_signal : bool;
  model : Model
}.

(** [update_children_checkstate parent_name_item state]: the parent with
    its rows updated.  The [itemChanged] signals that [setCheckState]
    raises here reach [handle_item_changed] while the block flag is set
    and return at once.  The recursive call is written before the write
    of the child's own state; the two touch different fields. *)
Fixpoint update_children_checkstate (parent_name_item : Item)
    (state : CheckState) {struct parent_name_item} : Item :=
  match parent_name_item with
  | mkItem t p c s kids =>
      mkItem t p c s
        ((fix each_row (l : list Item) : list Item :=
            match l with
            | [] => []
            | child_name_item :: l' =>
                (if isCheckable child_name_item then
                   let below :=
                     if hasChildren child_name_item
                     then update_children_checkstate child_name_item state
                     else child_name_item in
                   if CheckState_eqb (checkState child_name_item) state
                   then below
                   else setCheckState below state
                 else child_name_item) :: each_row l'
            end) kids)
  end.

Fixpoint update_row (f : Item -> Item) (r : nat) (l : list Item) {struct l}
    : list Item :=
  match l with
  | [] => []
  | x :: l' =>
      match r with
      | 0 => f x :: l'
      | S r' => x :: update_row f r' l'
      end
  end.

(** Replace the item at an index by [f] of it; an index that names no
    item changes nothing. *)
Fixpoint updateItem (f : Item -> Item) (ix : Index) (m : list Item)
    : list Item :=
  match ix with
  | [] => m
  | r :: ix' =>
      match ix' with
      | [] => update_row f r m
      | _ :: _ => update_row (fun it => setRows it (updateItem f ix' (rows it))) r m
      end
  end.

(** [handle_item_changed item], the item given by its index (column 0). *)
Definition handle_item_changed (w : Window) (item : Index) : Window :=
  if block_item_changed_signal w then w
  else
    match itemFromIndex (model w) item with
    | None => w
    | Some it =>
        if isCheckable it then
          let check_state := checkState it in
          {| block_item_changed_signal := false;
             model :=
               if hasChildren it
               then updateItem
                      (fun name_item =>
                         update_children_checkstate name_item check_state)
                      item (model w)
               else model w |}
        else w
    end.

(** [set_checked node value]: the view writes the new state into the
    item.  The model emits [itemChanged], and so runs the handler, only
    when the state written differs from the state the item had; writing
    the state it already has changes nothing. *)
Definition set_checked (w : Window) (node : Index) (value : CheckState)
    : Window :=
  match itemFromIndex (model w) node with
  | None => w
  | Some it =>
      if CheckState_eqb (checkState it) value then w
      else
        handle_item_changed
          {| block_item_changed_signal := block_item_changed_signal w;
             model :=
               updateItem (fun it => setCheckState it value) node (model w) |}
          node
  end.

(** The window after a scan, and after any number of check-state
    changes. *)
Inductive reachable : Window -> Prop :=
| reach_scan : forall root_folder fs,
    reachable {| block_item_changed_signal := false;
                 model := snd (populate_tree root_folder fs) |}
| reach_set : forall w node value,
    reachable w -> reachable (set_checked w node value).

(* ===================================================================== *)
(** * Vocabulary of the statements *)
(* ===================================================================== *)

(** Every item on the way from the top-level rows [m] down to the item at
    [ix], that item included, satisfies [P]. *)
Fixpoint all_on_path (P : Item -> bool) (m : list Item) (ix : Index) : bool :=
  match ix with
  | [] => false
  | r :: ix' =>
      match nth_error m r with
      | None => false
      | Some it =>
          P it &&
          match ix' with
          | [] => true
          | _ :: _ => all_on_path P (rows it) ix'
          end
      end
  end.

Definition connector (last : bool) : string :=
  if last then connector_last else connector_mid.

Definition indent (last : bool) : string :=
  if last then indent_last else indent_mid.

(** The source rows, among the siblings [l], of those that count, in the
    order in which the view shows them. *)
Definition rows_in_view (counts : Item -> bool) (l : list Item) : list nat :=
  map fst
    (sort_descending (fun ri : nat * Item => text (snd ri))
       (filter (fun ri => counts (snd ri)) (combine (seq 0 (length l)) l))).

(** Row [r] is the last, in the view, of the siblings that count. *)
Definition last_in_view (counts : Item -> bool) (l : list Item) (r : nat)
    : bool :=
  last (rows_in_view counts l) (length l) =? r.

(** The line the item at source index [ix] gets when an item is the last
    of its siblings exactly if it is the last, in the view, of those that
    count: at every level the last one extends the prefix by blanks, and
    the item itself takes the last-sibling connector. *)
Fixpoint expected_line (counts : Item -> bool) (m : list Item)
    (prefix : string) (ix : Index) : option string :=
  match ix with
  | [] => None
  | r :: ix' =>
      match nth_error m r with
      | None => None
      | Some it =>
          let last := last_in_view counts m r in
          match ix' with
          | [] => Some (prefix ++ connector last ++ text it)%string
          | _ :: _ => expected_line counts (rows it) (prefix ++ indent last) ix'
          end
      end
  end.

(** Every exported line is the expected one, for a given notion of which
    siblings count towards being last. *)
Definition lastness_rule (counts : string -> Item -> bool) : Prop :=
  forall filter_text m ix line,
    In (ix, line) (text_lines_indexed filter_text m) ->
    expected_line (counts filter_text) m "" ix = Some line.

(** Siblings count when they are emitted. *)
Definition counts_emitted (filter_text : string) (it : Item) : bool :=
  row_accepted filter_text it && emits it.

(** Siblings count when they pass the filter. *)
Definition counts_filtered (filter_text : string) (it : Item) : bool :=
  row_accepted filter_text it.

(** An error marker is a row the scan built in one of its [except]
    branches; those are the rows that carry no [FULL_PATH_ROLE] data. *)
Definition error_marker (it : Item) : bool :=
  match full_path it with None => true | Some _ => false end.

(** The shape of every tree the scan builds and check-state changes keep:
    a row without path data is not checkable, and a row that is not
    checkable has no rows below it. *)
Fixpoint well_formed (it : Item) : Prop :=
  match it with
  | mkItem _ p c _ kids =>
      (p = None -> c = false) /\ (c = false -> kids = []) /\
      (fix all_rows (l : list Item) : Prop :=
         match l with
         | [] => True
         | k :: l' => well_formed k /\ all_rows l'
         end) kids
  end.

(** What the loop of [update_children_checkstate] turns one row into. *)
Definition cascade_row (state : CheckState) (child_name_item : Item) : Item :=
  if isCheckable child_name_item then
    let below :=
      if hasChildren child_name_item
      then update_children_checkstate child_name_item state
      else child_name_item in
    if CheckState_eqb (checkState child_name_item) state
    then below
    else setCheckState below state
  else child_name_item.

(** [d'] is what a cascade of [v] makes of [d]: a checkable item takes
    the state [v], an item that is not checkable is left as it is. *)
Definition cascaded (v : CheckState) (d d' : Item) : Prop :=
  text d' = text d /\ full_path d' = full_path d /\
  isCheckable d' = isCheckable d /\
  if isCheckable d then checkState d' = v else d' = d.

(** The item [set_checked] leaves at the index it was given, when the
    state written differs from the state the item had. *)
Definition checked_node (n : Item) (v : CheckState) : Item :=
  if isCheckable n && hasChildren n
  then update_children_checkstate (setCheckState n v) v
  else setCheckState n v.

(** What [set_checked] makes of the item it is given, with the block
    flag on and off. *)
Definition set_checked_item (blocked : bool) (v : CheckState) (n : Item) : Item :=
  if CheckState_eqb (checkState n) v then n
  else if blocked then setCheckState n v else checked_node n v.

(** Two lookups that both fail, or both succeed with related items. *)
Definition both (R : Item -> Item -> Prop) (a b : option Item) : Prop :=
  match a, b with
  | Some x, Some y => R x y
  | None, None => True
  | _, _ => False
  end.

(** What an item shows besides its rows. *)
Definition item_data (it : Item) : string * option string * bool * CheckState :=
  (text it, full_path it, isCheckable it, checkState it).

(** [ix] extends [node]: the item at [ix] is the one at [node] or lies
    below it. *)
Definition at_or_below (node ix : Index) : Prop :=
  exists rest, ix = node ++ rest.

(** The state in which the scan leaves a tree: a checkable row is checked
    and carries its path; a row that is not checkable is unchecked, has
    no path data and no rows below it. *)
Fixpoint as_scanned (it : Item) : Prop :=
  match it with
  | mkItem _ p c s kids =>
      (if c then s = Checked /\ p <> None
       else s = Unchecked /\ p = None /\ kids = []) /\
      (fix all_rows (l : list Item) : Prop :=
         match l with
         | [] => True
         | k :: l' => as_scanned k /\ all_rows l'
         end) kids
  end.

(** A tree with every check state forgotten: what is left is the texts,
    the path data, the checkable flags and the arrangement of the rows. *)
Fixpoint erase_states (it : Item) : Item :=
  match it with
  | mkItem t p c _ kids =>
      mkItem t p c Unchecked
        ((fix each (l : list Item) : list Item :=
            match l with
            | [] => []
            | k :: l' => erase_states k :: each l'
            end) kids)
  end.

(** In the list [l], [a] stands at an earlier place than [b]. *)
Definition comes_before {A : Type} (l : list A) (a b : A) : Prop :=
  exists l1 l2 l3, l = l1 ++ a :: l2 ++ b :: l3.

(** Equality of two sort keys. *)
Definition key_eqb (k1 k2 : bool * string) : bool :=
  Bool.eqb (fst k1) (fst k2) && String.eqb (snd k1) (snd k2).

End Program.

(* ===================================================================== *)
(** * The library for ASCII text, and a small project directory *)
(* ===================================================================== *)

(** The library on ASCII text: [str.lower] moves [A-Z] to [a-z], and two
    [QString]s compare as their characters do. *)
Definition ascii_library : Library :=
  {| str_lower := PyStr.lower;
     qstring_less := String.ltb;
     str_lower_empty :=
       ltac:(intros [|c s]; simpl; split; intros H; congruence) |}.

Module Example.

Definition stat_of (size : Z) : stat_result :=
  {| st_mtime := 0; st_size := size |}.

(** A regular file: [os.scandir] on it raises [NotADirectoryError]. *)
Definition file (name : string) (size : Z) : DirEntry * Fs :=
  ({| entry_name := name; entry_is_dir := false;
      entry_stat := Some (stat_of size) |},
   FsAt (Some (stat_of size)) RaisesOtherError).

Definition dir (name : string) (entries : list (DirEntry * Fs))
    : DirEntry * Fs :=
  ({| entry_name := name; entry_is_dir := true;
      entry_stat := Some (stat_of 4096) |},
   FsAt (Some (stat_of 4096)) (Listed entries)).

(** [a.txt] (100 bytes), [b.txt] (2048 bytes) and [sub/] with [c.txt],
    in the order the operating system happens to list them. *)
Definition project : Fs :=
  FsAt (Some (stat_of 4096))
    (Listed [file "b.txt" 2048; dir "sub" [file "c.txt" 12]; file "a.txt" 100]).

Definition project_root : string := "/home/user/project".

(** The window right after the scan. *)
Definition scanned : Window :=
  {| block_item_changed_signal := false;
     model := snd (populate_tree (L := ascii_library) project_root project) |}.

(** A directory with an unreadable subdirectory between two readable
    entries. *)
Definition guarded : Fs :=
  FsAt (Some (stat_of 4096))
    (Listed [dir "logs" [file "x.log" 7];
             ({| entry_name := "secret"; entry_is_dir := true;
                 entry_stat := Some (stat_of 4096) |},
              FsAt (Some (stat_of 4096)) RaisesPermissionError);
             file "gone" 0]).

Definition guarded_root : string := "/srv/data".

Definition guarded_scanned : Window :=
  {| block_item_changed_signal := false;
     model := snd (populate_tree (L := ascii_library) guarded_root guarded) |}.

(** A source folder whose only file matches the query [MAIN]. *)
Definition main_py : Item :=
  mkItem "Main.py" (Some "/w/src/Main.py") true Checked [].

Definition src : Item :=
  mkItem "src" (Some "/w/src") true Checked
    [mkItem "src" (Some "/w/src") true Checked [main_py]].

End Example.

Section Proofs.
Context {L : Library}.

(* ===================================================================== *)
(** * Lemmas: strings *)
(* ===================================================================== *)

Lemma is_empty_true (s : string) : PyStr.is_empty s = true <-> s = "".
Proof. destruct s; simpl; split; intros H; congruence. Qed.

Lemma lower_is_empty (s : string) :
  PyStr.is_empty (str_lower s) = PyStr.is_empty s.
Proof.
  destruct (PyStr.is_empty s) eqn:E.
  - apply is_empty_true in E. apply is_empty_true.
    apply (proj2 (str_lower_empty s)). exact E.
  - destruct (PyStr.is_empty (str_lower s)) eqn:E'; [|reflexivity].
    apply is_empty_true in E'. apply (proj1 (str_lower_empty s)) in E'.
    subst s. discriminate.
Qed.

Lemma prefix_split (a s : string) :
  prefix a s = true <-> exists rest, s = (a ++ rest)%string.
Proof.
  revert a; induction s as [|c' s IH]; intros a; simpl.
  - destruct a as [|c a].
    + split; [intros _; exists ""; reflexivity | reflexivity].
    + split; [discriminate | intros [rest H]; discriminate].
  - destruct a as [|c a]; simpl.
    + split; [intros _; eexists; reflexivity | reflexivity].
    + destruct (ascii_dec c c') as [->|Hne].
      * rewrite IH. split; intros [rest H]; exists rest; congruence.
      * split; [discriminate | intros [rest H]; congruence].
Qed.

Lemma contains_Substring (sub s : string) :
  PyStr.contains sub s = true <-> PyStr.Substring sub s.
Proof.
  unfold PyStr.Substring.
  induction s as [|c s IH]; cbn [PyStr.contains].
  - rewrite orb_false_r, prefix_split. split.
    + intros [rest H]. exists "", rest. exact H.
    + intros [[|b before] [after H]]; simpl in H; [eauto | discriminate].
  - rewrite orb_true_iff, prefix_split, IH. split.
    + intros [[rest H] | [before [after H]]].
      * exists "", rest. exact H.
      * exists (String c before), after. simpl. congruence.
    + intros [[|b before] [after H]]; simpl in H.
      * left. eauto.
      * right. exists before, after. congruence.
Qed.

Lemma contains_in_empty (sub : string) :
  PyStr.contains sub "" = true -> sub = "".
Proof. destruct sub; simpl; [reflexivity | discriminate]. Qed.

(* ===================================================================== *)
(** * Lemmas: the filter *)
(* ===================================================================== *)

(** Structural induction on items that also gives the hypothesis for all
    rows. *)
Lemma Item_rows_ind (P : Item -> Prop) :
  (forall t p c s rs, Forall P rs -> P (mkItem t p c s rs)) ->
  forall it, P it.
Proof.
  intros step.
  fix IH 1.
  intros [t p c s rs].
  apply step.
  induction rs as [|r rs' IHrs]; constructor.
  - apply IH.
  - exact IHrs.
Qed.

Lemma row_accepted_eq (ft : string) (it : Item) :
  row_accepted ft it =
  PyStr.is_empty ft || text_matches ft it || existsb (row_accepted ft) (rows it).
Proof.
  destruct it as [t p c s kids]. unfold text_matches. simpl.
  destruct (PyStr.is_empty ft); [reflexivity|]. simpl.
  destruct (negb (PyStr.is_empty t) && PyStr.contains ft (str_lower t));
    [reflexivity|]. simpl.
  induction kids as [|k kids IH]; simpl; [reflexivity|].
  destruct (row_accepted ft k); simpl; [reflexivity | exact IH].
Qed.

Lemma row_accepted_empty (it : Item) : row_accepted "" it = true.
Proof. rewrite row_accepted_eq. reflexivity. Qed.

Lemma text_matches_Substring (ft : string) (it : Item) :
  PyStr.is_empty ft = false ->
  (text_matches ft it = true <-> PyStr.Substring ft (str_lower (text it))).
Proof.
  intros Hne. unfold text_matches. rewrite andb_true_iff, contains_Substring.
  split; [tauto|]. intros H. split; [|exact H].
  destruct (text it) as [|c t]; [|reflexivity].
  rewrite (proj2 (str_lower_empty "") eq_refl) in H.
  apply contains_Substring, contains_in_empty in H. subst ft. discriminate.
Qed.

(** An accepted row makes the row above it accepted. *)
Lemma row_accepted_parent (ft : string) (c a : Item) :
  In c (rows a) -> row_accepted ft c = true -> row_accepted ft a = true.
Proof.
  intros Hin Hc. rewrite (row_accepted_eq ft a).
  apply orb_true_iff. right. apply existsb_exists. eauto.
Qed.

Lemma row_accepted_upward (ft : string) (d a : Item) :
  descendant d a -> row_accepted ft d = true -> row_accepted ft a = true.
Proof.
  induction 1 as [d a Hin | d c a Hin Hdc IH]; intros Hd.
  - eapply row_accepted_parent; eassumption.
  - eapply row_accepted_parent; [eassumption | auto].
Qed.

(** [filterAcceptsRow] on a valid row is [row_accepted] on its item. *)
Lemma filterAcceptsRow_item (ft : string) (m : Model) (row : nat)
    (parent : Index) (it : Item) :
  itemFromIndex m (parent ++ [row]) = Some it ->
  filterAcceptsRow ft m row parent = row_accepted ft it.
Proof.
  intros H. unfold filterAcceptsRow. rewrite H.
  destruct (PyStr.is_empty ft) eqn:E; [|reflexivity].
  apply is_empty_true in E. subst. symmetry. apply row_accepted_empty.
Qed.

Lemma hasChildren_false (it : Item) : hasChildren it = false -> rows it = [].
Proof. unfold hasChildren. destruct (rows it); [reflexivity | discriminate]. Qed.

Lemma itemFromIndex_nil (ix : Index) : itemFromIndex [] ix = None.
Proof. destruct ix as [|[|r] ix]; reflexivity. Qed.

Lemma itemFromIndex_app (node : Index) :
  forall (m : list Item) (n : Item) (rest : Index),
    itemFromIndex m node = Some n ->
    itemFromIndex m (node ++ rest) =
    match rest with
    | [] => Some n
    | _ :: _ => itemFromIndex (rows n) rest
    end.
Proof.
  induction node as [|r node IH]; intros m n rest Hn; [discriminate|].
  cbn [itemFromIndex app] in *.
  destruct (nth_error m r) as [it|]; [|discriminate].
  destruct node as [|r' node].
  - inversion Hn; subst. simpl. reflexivity.
  - cbn [app]. rewrite <- (IH (rows it) n rest Hn). reflexivity.
Qed.

Lemma nth_error_middle {A : Type} (done rest : list A) (c : A) :
  nth_error (done ++ c :: rest) (length done) = Some c.
Proof. rewrite nth_error_app2, Nat.sub_diag by lia. reflexivity. Qed.

Lemma height_eq (it : Item) :
  height it = S (fold_right (fun k h => Nat.max (height k) h) 0 (rows it)).
Proof.
  destruct it as [t p c s kids]. simpl. f_equal.
Qed.

Lemma height_row (it k : Item) : In k (rows it) -> height k < height it.
Proof.
  rewrite (height_eq it). generalize (rows it).
  induction l as [|x l IH]; intros Hin; [contradiction|].
  simpl. destruct Hin as [-> | Hin]; [lia|]. specialize (IH Hin). lia.
Qed.

(** The method on row numbers, given fuel beyond the height of the item,
    answers what [row_accepted] answers on the item and returns the model
    as it got it. *)
Lemma filterAcceptsRow_reads_item (ft : string) (it : Item) :
  forall fuel m source_row source_parent_index,
    itemFromIndex m (source_parent_index ++ [source_row]) = Some it ->
    height it <= fuel ->
    filterAcceptsRow_reads fuel ft source_row source_parent_index m =
    (Some (row_accepted ft it), m).
Proof.
  induction it as [t p c s rs IH] using Item_rows_ind.
  intros fuel m row parent Hit Hh.
  destruct fuel as [|fuel]; [rewrite height_eq in Hh; lia|].
  rewrite row_accepted_eq. cbn [filterAcceptsRow_reads].
  destruct (PyStr.is_empty ft) eqn:Hft; [reflexivity|].
  cbn [orb]. unfold bind at 1, model_isValid. rewrite Hit. cbn [negb].
  unfold bind at 1, model_data. rewrite Hit.
  unfold text_matches. cbn [text].
  destruct (negb (PyStr.is_empty t) && PyStr.contains ft (str_lower t));
    [reflexivity|].
  cbn [orb]. unfold bind at 1, model_hasChildren. rewrite Hit.
  destruct (hasChildren (mkItem t p c s rs)) eqn:Hc.
  2:{ apply hasChildren_false in Hc. cbn [rows] in *. subst rs. reflexivity. }
  unfold bind at 1, model_rowCount. rewrite Hit. cbn [rows].
  assert (Hloop : forall rest done,
             rs = done ++ rest ->
             (fix each (l : list nat) : Reads (option bool) :=
                match l with
                | [] => ret (Some false)
                | i :: l' =>
                    bind (filterAcceptsRow_reads fuel ft i (parent ++ [row]))
                      (fun r =>
                         match r with
                         | Some true => ret (Some true)
                         | Some false => each l'
                         | None => ret None
                         end)
                end) (seq (length done) (length rest)) m =
             (Some (existsb (row_accepted ft) rest), m)).
  { induction rest as [|k rest IHrest]; intros done Hrs; [reflexivity|].
    cbn [length seq existsb].
    assert (Hin : In k rs) by (rewrite Hrs; apply in_elt).
    assert (Hk : itemFromIndex m ((parent ++ [row]) ++ [length done]) = Some k).
    { rewrite (itemFromIndex_app _ m _ [length done] Hit).
      cbn [itemFromIndex rows]. rewrite Hrs, nth_error_middle. reflexivity. }
    rewrite Forall_forall in IH.
    assert (Hhk : height k <= fuel).
    { pose proof (height_row (mkItem t p c s rs) k Hin). lia. }
    unfold bind at 1. rewrite (IH k Hin fuel m _ _ Hk Hhk).
    destruct (row_accepted ft k); [reflexivity|].
    cbn [orb].
    specialize (IHrest (done ++ [k])).
    rewrite length_app, Nat.add_1_r in IHrest.
    apply IHrest. rewrite <- app_assoc. exact Hrs. }
  exact (Hloop rs [] eq_refl).
Qed.

(* ===================================================================== *)
(** * Theorems: the filter (C6, C7) *)
(* ===================================================================== *)


(** C7.  Visibility is closed upward: when [n] is visible under [q], so
    is every item [a] that [n] lies below. *)
Theorem C7_visible_upward (q : string) (n a : Item) :
  descendant n a -> is_visible n q = true -> is_visible a q = true.
Proof.
  unfold is_visible. apply row_accepted_upward.
Qed.

(* ===================================================================== *)
(** * Lemmas: the proxy view and the export *)
(* ===================================================================== *)

Lemma ProxyItem_rows_ind (P : ProxyItem -> Prop) :
  (forall r it prows, Forall P prows -> P (PNode r it prows)) ->
  forall p, P p.
Proof.
  intros step.
  fix IH 1.
  intros [r it prows].
  apply step.
  induction prows as [|q prows' IHrows]; constructor.
  - apply IH.
  - exact IHrows.
Qed.

Lemma insert_descending_perm {A : Type} (display : A -> string) (x : A)
    (l : list A) :
  Permutation (insert_descending display x l) (x :: l).
Proof.
  induction l as [|y l IH]; simpl.
  - apply Permutation_refl.
  - destruct (qstring_less (display x) (display y)).
    + apply perm_trans with (y :: x :: l).
      * apply perm_skip. exact IH.
      * apply perm_swap.
    + apply Permutation_refl.
Qed.

(** The view shows the rows it is given, each once, in another order. *)
Lemma sort_descending_perm {A : Type} (display : A -> string) (l : list A) :
  Permutation (sort_descending display l) l.
Proof.
  induction l as [|x l IH]; simpl.
  - apply perm_nil.
  - apply perm_trans with (x :: sort_descending display l).
    + apply insert_descending_perm.
    + apply perm_skip. exact IH.
Qed.

Lemma sort_descending_map {A B : Type} (d1 : A -> string) (d2 : B -> string)
    (g : A -> B) (l : list A) :
  (forall x, d2 (g x) = d1 x) ->
  sort_descending d2 (map g l) = map g (sort_descending d1 l).
Proof.
  intros Hd. induction l as [|x l IH]; simpl; [reflexivity|].
  rewrite IH. generalize (sort_descending d1 l). clear IH.
  intros s. induction s as [|y s IHs]; simpl; [reflexivity|].
  rewrite !Hd. destruct (qstring_less (d1 x) (d1 y)); simpl.
  - rewrite IHs. reflexivity.
  - reflexivity.
Qed.

Lemma mapFromSource_eq (ft : string) (row : nat) (it : Item) :
  mapFromSource ft row it = PNode row it (proxy_rows_for ft (rows it)).
Proof.
  destruct it as [t p c s kids]. unfold proxy_rows_for. simpl. do 2 f_equal.
  generalize 0. induction kids as [|k kids IH]; intros i; simpl.
  - reflexivity.
  - rewrite IH. reflexivity.
Qed.

(** The accepted rows are the accepted ones among the numbered rows. *)
Lemma accepted_rows_from_map (ft : string) (l : list Item) :
  forall i,
    accepted_rows_from ft i l =
    map (fun ri => mapFromSource ft (fst ri) (snd ri))
        (filter (fun ri => row_accepted ft (snd ri))
                (combine (seq i (length l)) l)).
Proof.
  induction l as [|c l IH]; intros i; simpl; [reflexivity|].
  destruct (row_accepted ft c); simpl; rewrite IH; reflexivity.
Qed.

Lemma In_numbered (l : list Item) :
  forall i r (it : Item),
    In (r, it) (combine (seq i (length l)) l) <->
    i <= r /\ nth_error l (r - i) = Some it.
Proof.
  induction l as [|c l IH]; intros i r it; simpl.
  - split; [contradiction|]. intros [_ H]. destruct (r - i); discriminate.
  - rewrite IH. split.
    + intros [H | [Hle H]].
      * inversion H; subst. rewrite Nat.sub_diag. auto.
      * split; [lia|]. replace (r - i) with (S (r - S i)) by lia. exact H.
    + intros [Hle H]. destruct (r - i) as [|k] eqn:E.
      * left. simpl in H. inversion H; subst. f_equal. lia.
      * right. split; [lia|]. simpl in H.
        replace (r - S i) with k by lia. exact H.
Qed.

Lemma numbered_rows_NoDup (l : list Item) :
  forall i, NoDup (map fst (combine (seq i (length l)) l)).
Proof.
  induction l as [|c l IH]; intros i; simpl; constructor.
  - intros Hin. apply in_map_iff in Hin. destruct Hin as [[r it] [Heq Hin]].
    simpl in Heq. subst r. apply In_numbered in Hin. lia.
  - apply IH.
Qed.

Lemma filter_fst_NoDup {A B : Type} (f : A * B -> bool) (l : list (A * B)) :
  NoDup (map fst l) -> NoDup (map fst (filter f l)).
Proof.
  induction l as [|x l IH]; simpl; intros H; [constructor|].
  inversion H as [|? ? Hnot Hnd]; subst.
  destruct (f x); simpl; [|auto].
  constructor; [|auto].
  intros Hin. apply Hnot. apply in_map_iff in Hin.
  destruct Hin as [y [Heq Hy]]. apply filter_In in Hy.
  apply in_map_iff. exists y. tauto.
Qed.

(** No source row is shown twice among the rows of the view. *)
Lemma rows_in_view_NoDup (counts : Item -> bool) (l : list Item) :
  NoDup (rows_in_view counts l).
Proof.
  unfold rows_in_view.
  eapply Permutation_NoDup.
  - apply Permutation_map, Permutation_sym, sort_descending_perm.
  - apply filter_fst_NoDup, numbered_rows_NoDup.
Qed.

(** The proxy rows are the rows of the siblings that pass the filter, in
    the order of the view. *)
Lemma proxy_rows_for_view (ft : string) (l : list Item) :
  proxy_rows_for ft l =
  map (fun ri => mapFromSource ft (fst ri) (snd ri))
      (sort_descending (fun ri : nat * Item => text (snd ri))
         (filter (fun ri => row_accepted ft (snd ri))
                 (combine (seq 0 (length l)) l))).
Proof.
  unfold proxy_rows_for. rewrite accepted_rows_from_map.
  apply sort_descending_map.
  intros [r it]. unfold proxy_display. rewrite mapFromSource_eq. reflexivity.
Qed.

Lemma proxy_rows_for_source_rows (ft : string) (l : list Item) :
  map source_row_of (proxy_rows_for ft l) = rows_in_view (counts_filtered ft) l.
Proof.
  rewrite proxy_rows_for_view, map_map. unfold rows_in_view, counts_filtered.
  apply map_ext. intros [r it]. rewrite mapFromSource_eq. reflexivity.
Qed.

(** A proxy row is the proxy of a source row that passes the filter. *)
Lemma proxy_rows_for_In (ft : string) (l : list Item) (p : ProxyItem) :
  In p (proxy_rows_for ft l) <->
  exists r it,
    p = mapFromSource ft r it /\
    nth_error l r = Some it /\ row_accepted ft it = true.
Proof.
  rewrite proxy_rows_for_view, in_map_iff. split.
  - intros [[r it] [Hp Hin]].
    apply (Permutation_in _ (sort_descending_perm _ _)) in Hin.
    apply filter_In in Hin. destruct Hin as [Hin Hacc].
    apply In_numbered in Hin. rewrite Nat.sub_0_r in Hin.
    cbn [fst snd] in *. exists r, it.
    split; [symmetry; exact Hp|]. split; [apply Hin | exact Hacc].
  - intros [r [it [Hp [Hr Hacc]]]]. exists (r, it).
    split; [symmetry; exact Hp|].
    apply (Permutation_in _ (Permutation_sym (sort_descending_perm _ _))).
    apply filter_In. split; [|exact Hacc].
    apply In_numbered. rewrite Nat.sub_0_r. split; [lia | exact Hr].
Qed.

Lemma generate_text_recursive_v2_eq (r : nat) (it : Item)
    (prows : list ProxyItem) (prefix : string) (last : bool) :
  generate_text_recursive_v2 (PNode r it prows) prefix last =
  if emits it
  then (prefix ++ connector last ++ text it)%string ::
       rows_loop (prefix ++ indent last) (length prows) 0 prows
  else [].
Proof.
  unfold emits. simpl.
  destruct (isCheckable it && CheckState_eqb (checkState it) Checked);
    [|reflexivity].
  f_equal.
  generalize (length prows). generalize 0 at 2 3.
  induction prows as [|q prows IH]; intros row num; simpl.
  - reflexivity.
  - rewrite IH. reflexivity.
Qed.

Lemma generate_indexed_eq (sp : Index) (r : nat) (it : Item)
    (prows : list ProxyItem) (prefix : string) (last : bool) :
  generate_indexed sp (PNode r it prows) prefix last =
  if emits it
  then (sp ++ [r], (prefix ++ connector last ++ text it)%string) ::
       rows_loop_indexed (sp ++ [r]) (prefix ++ indent last)
         (length prows) 0 prows
  else [].
Proof.
  unfold emits. simpl.
  destruct (isCheckable it && CheckState_eqb (checkState it) Checked);
    [|reflexivity].
  f_equal.
  generalize (length prows). generalize 0 at 2 3.
  induction prows as [|q prows IH]; intros row num; simpl.
  - reflexivity.
  - rewrite IH. reflexivity.
Qed.

(** Dropping the recorded indices gives back the exported lines. *)
Lemma generate_indexed_lines (p : ProxyItem) :
  forall sp prefix last,
    map snd (generate_indexed sp p prefix last) =
    generate_text_recursive_v2 p prefix last.
Proof.
  induction p as [r it prows IH] using ProxyItem_rows_ind.
  intros sp prefix last.
  rewrite generate_indexed_eq, generate_text_recursive_v2_eq.
  destruct (emits it); [|reflexivity].
  simpl. f_equal.
  generalize (length prows). generalize 0.
  induction IH as [|q prows' Hq _ IHrows]; intros row num; simpl.
  - reflexivity.
  - rewrite map_app, Hq, IHrows. reflexivity.
Qed.

Lemma rows_loop_indexed_lines (sp : Index) (prefix : string)
    (num row : nat) (l : list ProxyItem) :
  map snd (rows_loop_indexed sp prefix num row l) = rows_loop prefix num row l.
Proof.
  revert row. induction l as [|q l IH]; intros row; simpl.
  - reflexivity.
  - rewrite map_app, generate_indexed_lines, IH. reflexivity.
Qed.

Lemma text_lines_indexed_lines (ft : string) (m : Model) :
  map snd (text_lines_indexed ft m) = text_lines ft m.
Proof. apply rows_loop_indexed_lines. Qed.

(** What the loop emits is what its turns emit: turn [j] handles the
    proxy row at position [j], with the test [row == num_rows - 1]. *)
Lemma rows_loop_indexed_In (sp : Index) (prefix : string) (num : nat)
    (prows : list ProxyItem) (x : Index * string) :
  forall k,
    In x (rows_loop_indexed sp prefix num k prows) <->
    exists j p,
      nth_error prows j = Some p /\
      In x (generate_indexed sp p prefix (k + j =? num - 1)).
Proof.
  induction prows as [|q prows IH]; intros k; simpl.
  - split; [contradiction|]. intros [j [p [H _]]]. destruct j; discriminate.
  - rewrite in_app_iff, IH. split.
    + intros [H | [j [p [Hj H]]]].
      * exists 0, q. rewrite Nat.add_0_r. auto.
      * exists (S j), p. rewrite Nat.add_succ_r. auto.
    + intros [[|j] [p [Hj H]]].
      * left. simpl in Hj. inversion Hj; subst. rewrite Nat.add_0_r in H. exact H.
      * right. exists j, p. rewrite Nat.add_succ_r in H. auto.
Qed.

Lemma last_nth_error {A : Type} (l : list A) (d x : A) :
  nth_error l (length l - 1) = Some x -> last l d = x.
Proof.
  induction l as [|a l IH]; [discriminate|].
  destruct l as [|b l]; simpl.
  - intros H. congruence.
  - intros H. apply IH. simpl. rewrite Nat.sub_0_r. exact H.
Qed.

(** With no row shown twice, the loop's test holds for a row exactly when
    it is the last one listed. *)
Lemma last_position_test (R : list nat) (j r d : nat) :
  NoDup R -> nth_error R j = Some r ->
  (j =? length R - 1) = (last R d =? r).
Proof.
  intros Hnd Hj.
  assert (Hlt : j < length R) by (apply nth_error_Some; congruence).
  destruct (nth_error R (length R - 1)) as [r'|] eqn:Hlast.
  2:{ apply nth_error_None in Hlast. lia. }
  rewrite (last_nth_error R d r' Hlast).
  destruct (Nat.eqb_spec j (length R - 1)) as [-> | Hne].
  - symmetry. apply Nat.eqb_eq. congruence.
  - symmetry. apply Nat.eqb_neq. intros ->. apply Hne.
    apply (proj1 (NoDup_nth_error R) Hnd j (length R - 1) Hlt). congruence.
Qed.

(** The loop's test on the proxy rows of [l], at the turn of the proxy of
    source row [r]. *)
Lemma last_row_test (ft : string) (l : list Item) (j r : nat) (it : Item) :
  nth_error (proxy_rows_for ft l) j = Some (mapFromSource ft r it) ->
  (j =? length (proxy_rows_for ft l) - 1) =
  last_in_view (counts_filtered ft) l r.
Proof.
  intros Hj. unfold last_in_view.
  rewrite <- proxy_rows_for_source_rows.
  rewrite <- (length_map source_row_of (proxy_rows_for ft l)).
  apply last_position_test.
  - rewrite proxy_rows_for_source_rows. apply rows_in_view_NoDup.
  - rewrite nth_error_map, Hj. rewrite mapFromSource_eq. reflexivity.
Qed.

Section ExportSound.
Variable ft : string.

(** What one call on the proxy row of a source item may emit. *)
Let call_sound (it : Item) : Prop :=
  forall sp row prefix last ix line,
    In (ix, line) (generate_indexed sp (mapFromSource ft row it) prefix last) ->
    emits it = true /\
    exists ix', ix = sp ++ row :: ix' /\
      match ix' with
      | [] => line = (prefix ++ connector last ++ text it)%string
      | _ :: _ =>
          all_on_path (counts_emitted ft) (rows it) ix' = true /\
          expected_line (counts_filtered ft) (rows it)
            (prefix ++ indent last) ix' = Some line
      end.

Lemma rows_loop_indexed_sound (l : list Item) :
  Forall call_sound l ->
  forall sp prefix ix line,
    In (ix, line)
       (rows_loop_indexed sp prefix (length (proxy_rows_for ft l)) 0
          (proxy_rows_for ft l)) ->
    exists ix', ix = sp ++ ix' /\
      all_on_path (counts_emitted ft) l ix' = true /\
      expected_line (counts_filtered ft) l prefix ix' = Some line.
Proof.
  intros Hl sp prefix ix line Hin.
  apply rows_loop_indexed_In in Hin. destruct Hin as [j [p [Hj Hin]]].
  cbn [Nat.add] in Hin.
  pose proof (nth_error_In _ _ Hj) as Hp.
  apply proxy_rows_for_In in Hp. destruct Hp as [r [it [-> [Hr Hacc]]]].
  rewrite (last_row_test ft l j r it Hj) in Hin.
  rewrite Forall_forall in Hl.
  apply (Hl it (nth_error_In _ _ Hr)) in Hin.
  destruct Hin as [Hem [ix' [-> Hix']]].
  exists (r :: ix'). split; [reflexivity|].
  cbn [all_on_path expected_line]. rewrite Hr.
  unfold counts_emitted at 1. rewrite Hacc, Hem. simpl.
  destruct ix' as [|r' ix'].
  - split; [reflexivity | congruence].
  - exact Hix'.
Qed.

Lemma generate_indexed_sound (it : Item) : call_sound it.
Proof.
  induction it as [t p c s rs IH] using Item_rows_ind.
  intros sp row prefix last ix line Hin.
  rewrite mapFromSource_eq, generate_indexed_eq in Hin.
  destruct (emits (mkItem t p c s rs)) eqn:Hem; [|contradiction].
  split; [reflexivity|].
  destruct Hin as [Heq | Hin].
  - inversion Heq; subst. exists []. split; reflexivity.
  - apply (rows_loop_indexed_sound rs IH (sp ++ [row])) in Hin.
    destruct Hin as [ix' [-> [Hall Hline]]].
    exists ix'. split; [rewrite <- app_assoc; reflexivity|].
    destruct ix' as [|r ix']; [discriminate|].
    split; assumption.
Qed.

(** Every exported line belongs to an item that, like every item above
    it, passes the filter, is checkable and is checked; and the line is
    the one expected when the siblings that pass the filter count. *)
Lemma text_lines_indexed_sound (m : Model) (ix : Index) (line : string) :
  In (ix, line) (text_lines_indexed ft m) ->
  all_on_path (counts_emitted ft) m ix = true /\
  expected_line (counts_filtered ft) m "" ix = Some line.
Proof.
  unfold text_lines_indexed, proxy_model. intros Hin.
  apply (rows_loop_indexed_sound m) in Hin.
  - destruct Hin as [ix' [-> H]]. exact H.
  - apply Forall_forall. intros it _. apply generate_indexed_sound.
Qed.
End ExportSound.
(* ===================================================================== *)
(** * Lemmas: [sorted] *)
(* ===================================================================== *)

Lemma string_ltb_lt (a b : string) :
  String.ltb a b = true <-> String_as_OT.lt a b.
Proof.
  rewrite <- String_as_OT.cmp_lt. unfold String.ltb.
  change String_as_OT.cmp with String.compare.
  destruct (String.compare a b); split; congruence.
Qed.

Lemma string_trichotomy (a b : string) :
  String.ltb a b = true \/ a = b \/ String.ltb b a = true.
Proof.
  unfold String.ltb. rewrite (String.compare_antisym a b).
  destruct (String.compare b a) eqn:E; simpl; auto.
  apply String.compare_eq_iff in E. auto.
Qed.

Lemma string_ltb_trans (a b c : string) :
  String.ltb a b = true -> String.ltb b c = true -> String.ltb a c = true.
Proof.
  rewrite !string_ltb_lt. apply String_as_OT.lt_trans.
Qed.

Lemma string_ltb_irrefl (a : string) : String.ltb a a = false.
Proof.
  destruct (String.ltb a a) eqn:E; [|reflexivity].
  apply string_ltb_lt in E. exfalso.
  exact (String_as_OT.lt_not_eq a a E eq_refl).
Qed.

Lemma string_not_ltb_leb (a b : string) :
  String.ltb b a = false -> String.leb a b = true.
Proof.
  unfold String.ltb, String.leb. rewrite (String.compare_antisym a b).
  destruct (String.compare b a); simpl; congruence.
Qed.

Lemma key_le_trans (k1 k2 k3 : bool * string) :
  key_le k1 k2 -> key_le k2 k3 -> key_le k1 k3.
Proof.
  destruct k1 as [b1 s1], k2 as [b2 s2], k3 as [b3 s3].
  unfold key_le, key_ltb. simpl.
  destruct b1, b2, b3; try congruence; intros H12 H23;
    (destruct (String.ltb s3 s1) eqn:E; [|reflexivity]);
    destruct (string_trichotomy s2 s1) as [H | [-> | H]]; try congruence;
    rewrite (string_ltb_trans _ _ _ E H) in H23; discriminate.
Qed.

Lemma key_le_total (k1 k2 : bool * string) :
  key_ltb k1 k2 = true -> key_le k1 k2.
Proof.
  destruct k1 as [b1 s1], k2 as [b2 s2]. unfold key_le, key_ltb. simpl.
  destruct b1, b2; try congruence; intros H;
    (destruct (String.ltb s2 s1) eqn:E; [|reflexivity]);
    pose proof (string_ltb_trans _ _ _ H E) as Hc;
    rewrite string_ltb_irrefl in Hc; discriminate.
Qed.

Section SortedFacts.
Context {A : Type} (key : A -> bool * string).

Lemma insert_by_key_perm (x : A) (l : list A) :
  Permutation (insert_by_key key x l) (x :: l).
Proof.
  induction l as [|y l IH]; simpl.
  - apply Permutation_refl.
  - destruct (key_ltb (key y) (key x)).
    + apply perm_trans with (y :: x :: l).
      * apply perm_skip. exact IH.
      * apply perm_swap.
    + apply Permutation_refl.
Qed.

Lemma sorted_perm (l : list A) : Permutation (sorted key l) l.
Proof.
  induction l as [|x l IH]; simpl.
  - apply perm_nil.
  - apply perm_trans with (x :: sorted key l).
    + apply insert_by_key_perm.
    + apply perm_skip. exact IH.
Qed.

Lemma insert_by_key_sorted (x : A) (l : list A) :
  StronglySorted (fun a b => key_le (key a) (key b)) l ->
  StronglySorted (fun a b => key_le (key a) (key b)) (insert_by_key key x l).
Proof.
  induction 1 as [|y l Hl IH Hy]; simpl.
  - constructor; constructor.
  - destruct (key_ltb (key y) (key x)) eqn:E.
    + constructor; [exact IH|].
      eapply Permutation_Forall.
      * apply Permutation_sym, insert_by_key_perm.
      * constructor; [apply key_le_total; exact E | exact Hy].
    + constructor; [constructor; assumption|].
      constructor; [exact E|].
      eapply Forall_impl; [|exact Hy].
      intros z Hz. eapply key_le_trans; [exact E | exact Hz].
Qed.

Lemma sorted_StronglySorted (l : list A) :
  StronglySorted (fun a b => key_le (key a) (key b)) (sorted key l).
Proof.
  induction l as [|x l IH]; simpl.
  - constructor.
  - apply insert_by_key_sorted. exact IH.
Qed.
End SortedFacts.

Lemma sorted_map {A B : Type} (key1 : A -> bool * string)
    (key2 : B -> bool * string) (g : A -> B) (l : list A) :
  (forall x, key2 (g x) = key1 x) ->
  sorted key2 (map g l) = map g (sorted key1 l).
Proof.
  intros Hk. induction l as [|x l IH]; simpl; [reflexivity|].
  rewrite IH. generalize (sorted key1 l). clear IH.
  intros s. induction s as [|y s IHs]; simpl; [reflexivity|].
  rewrite !Hk. destruct (key_ltb (key1 y) (key1 x)); simpl.
  - rewrite IHs. reflexivity.
  - reflexivity.
Qed.

(* ===================================================================== *)
(** * Lemmas: the scan *)
(* ===================================================================== *)

Lemma Fs_listing_ind (P : Fs -> Prop) :
  (forall st entries,
      Forall (fun ef : DirEntry * Fs => P (snd ef)) entries ->
      P (FsAt st (Listed entries))) ->
  (forall st, P (FsAt st RaisesPermissionError)) ->
  (forall st, P (FsAt st RaisesOtherError)) ->
  forall fs, P fs.
Proof.
  intros Hlist Hperm Hother.
  fix IH 1.
  intros [st [entries | | ]].
  - apply Hlist.
    induction entries as [|[e sub] entries IHe]; constructor.
    + apply IH.
    + exact IHe.
  - apply Hperm.
  - apply Hother.
Qed.

(** [add_folder_item_recursive], with the loop in the order of the
    source: [sorted] first, then one turn per entry. *)
Lemma add_folder_item_recursive_eq (current_path : string)
    (os_stat : option stat_result)
    (os_scandir : ScandirOutcome (DirEntry * Fs)) :
  add_folder_item_recursive current_path (FsAt os_stat os_scandir) =
  match os_stat with
  | None =>
      (access_error_item (base_name_of current_path),
       [text (access_error_item (base_name_of current_path))])
  | Some _ =>
      let appended :=
        match os_scandir with
        | Listed entries => scan_listing current_path entries
        | RaisesPermissionError => [(perm_denied_item, [text perm_denied_item])]
        | RaisesOtherError => [(scan_error_item, [text scan_error_item])]
        end in
      (mkItem (base_name_of current_path) (Some current_path) true Checked
         (map fst appended),
       base_name_of current_path :: concat (map snd appended))
  end.
Proof.
  destruct os_stat as [st|]; [|reflexivity].
  destruct os_scandir as [entries| |]; [|reflexivity|reflexivity].
  cbn [add_folder_item_recursive]. fold (base_name_of current_path).
  set (g := fun ef : DirEntry * Fs =>
              (fst ef,
               add_folder_item_recursive
                 (PyStr.join current_path (entry_name (fst ef))) (snd ef))).
  match goal with
  | |- context [sorted _ (?F entries)] =>
      assert (Hmap : F entries = map g entries)
  end.
  { clear. induction entries as [|[e sub] entries IH]; simpl.
    - reflexivity.
    - rewrite IH. reflexivity. }
  rewrite Hmap.
  rewrite (sorted_map (fun ef => sort_key (fst ef)) _ g) by reflexivity.
  unfold scan_listing. cbv zeta. rewrite (map_map g). reflexivity.
Qed.

Lemma preorder_eq (it : Item) :
  preorder it = text it :: concat (map preorder (rows it)).
Proof.
  destruct it as [t p c s kids]. simpl. f_equal.
  induction kids as [|k kids IH]; simpl; [reflexivity|].
  rewrite IH. reflexivity.
Qed.

Lemma well_formed_eq (it : Item) :
  well_formed it <->
  (full_path it = None -> isCheckable it = false) /\
  (isCheckable it = false -> rows it = []) /\
  Forall well_formed (rows it).
Proof.
  destruct it as [t p c s kids]. simpl.
  assert (H : (fix all_rows (l : list Item) : Prop :=
                 match l with
                 | [] => True
                 | k :: l' => well_formed k /\ all_rows l'
                 end) kids <-> Forall well_formed kids).
  { induction kids as [|k kids IH]; simpl.
    - split; [constructor | trivial].
    - rewrite IH. split.
      + intros [H1 H2]. constructor; assumption.
      + intros H. inversion H; subst. split; assumption. }
  rewrite H. reflexivity.
Qed.

Lemma sorted_In {A : Type} (key : A -> bool * string) (l : list A) (x : A) :
  In x (sorted key l) -> In x l.
Proof. apply Permutation_in, sorted_perm. Qed.

Lemma concat_map_agree {A B : Type} (f g : A -> list B) (l : list A) :
  Forall (fun a => f a = g a) l -> concat (map f l) = concat (map g l).
Proof.
  induction 1 as [|a l Ha _ IH]; simpl; [reflexivity|].
  rewrite Ha, IH. reflexivity.
Qed.

Lemma entry_row_preorder (current_path : string) (ef : DirEntry * Fs) :
  (forall p, snd (add_folder_item_recursive p (snd ef)) =
             preorder (fst (add_folder_item_recursive p (snd ef)))) ->
  snd (entry_row current_path ef) = preorder (fst (entry_row current_path ef)).
Proof.
  intros IH. unfold entry_row, scan_entry.
  destruct (entry_stat (fst ef)); [|reflexivity].
  destruct (entry_is_dir (fst ef)); [|reflexivity].
  simpl. rewrite IH, app_nil_r. reflexivity.
Qed.

(** The rows are appended in depth-first pre-order. *)
Lemma scan_preorder (fs : Fs) :
  forall current_path,
    snd (add_folder_item_recursive current_path fs) =
    preorder (fst (add_folder_item_recursive current_path fs)).
Proof.
  induction fs as [st entries IH | st | st] using Fs_listing_ind;
    intros current_path; rewrite add_folder_item_recursive_eq;
    destruct st as [st|]; try reflexivity.
  cbv zeta. cbn [fst snd]. rewrite preorder_eq. cbn [text rows].
  f_equal. rewrite (map_map fst preorder).
  apply concat_map_agree. unfold scan_listing.
  apply Forall_map, Forall_forall. intros ef Hin.
  apply entry_row_preorder.
  apply sorted_In in Hin.
  rewrite Forall_forall in IH. exact (IH ef Hin).
Qed.

Lemma entry_row_well_formed (current_path : string) (ef : DirEntry * Fs) :
  (forall p, well_formed (fst (add_folder_item_recursive p (snd ef)))) ->
  well_formed (fst (entry_row current_path ef)).
Proof.
  intros IH. unfold entry_row, scan_entry.
  destruct (entry_stat (fst ef)).
  - destruct (entry_is_dir (fst ef)); simpl.
    + repeat split; try discriminate. apply IH.
    + repeat split; discriminate.
  - simpl. repeat split; reflexivity.
Qed.

(** Every tree the scan builds has the shape [well_formed]. *)
Lemma scan_well_formed (fs : Fs) :
  forall current_path,
    well_formed (fst (add_folder_item_recursive current_path fs)).
Proof.
  induction fs as [st entries IH | st | st] using Fs_listing_ind;
    intros current_path; rewrite add_folder_item_recursive_eq;
    destruct st as [st|]; try (simpl; repeat split; congruence).
  cbv zeta. cbn [fst]. apply well_formed_eq. cbn [full_path isCheckable rows].
  repeat split; try discriminate.
  unfold scan_listing. rewrite map_map.
  apply Forall_map, Forall_forall. intros ef Hin.
  apply entry_row_well_formed.
  apply sorted_In in Hin.
  rewrite Forall_forall in IH. exact (IH ef Hin).
Qed.

Lemma key_le_dirs (a b : DirEntry) :
  entry_is_dir a = entry_is_dir b ->
  key_le (sort_key a) (sort_key b) ->
  String.leb (str_lower (entry_name a)) (str_lower (entry_name b)) = true.
Proof.
  unfold key_le, key_ltb, sort_key. simpl. intros ->.
  destruct (entry_is_dir b); simpl; apply string_not_ltb_leb.
Qed.

Lemma key_le_file_then_file (a b : DirEntry) :
  entry_is_dir a = false ->
  key_le (sort_key a) (sort_key b) ->
  entry_is_dir b = false.
Proof.
  unfold key_le, key_ltb, sort_key. simpl. intros ->.
  destruct (entry_is_dir b); simpl; congruence.
Qed.

(** A listing in [sorted] order is its directories, by name, followed by
    its other entries, by name. *)
Lemma sorted_dirs_first (l : list (DirEntry * Fs)) :
  StronglySorted (fun a b => key_le (sort_key (fst a)) (sort_key (fst b))) l ->
  exists dirs files,
    l = dirs ++ files /\
    Forall (fun ef => entry_is_dir (fst ef) = true) dirs /\
    Forall (fun ef => entry_is_dir (fst ef) = false) files /\
    StronglySorted name_le dirs /\ StronglySorted name_le files.
Proof.
  induction 1 as [|x l Hl IH Hx].
  - exists [], []. repeat split; constructor.
  - destruct IH as [dirs [files [-> [Hd [Hf [Sd Sf]]]]]].
    apply Forall_app in Hx. destruct Hx as [Hxd Hxf].
    destruct (entry_is_dir (fst x)) eqn:Ex.
    + exists (x :: dirs), files. repeat split; auto.
      constructor; [exact Sd|].
      rewrite Forall_forall in *. intros y Hy.
      apply key_le_dirs; [rewrite Ex; symmetry; auto | auto].
    + assert (dirs = []) as ->.
      { destruct dirs as [|d dirs]; [reflexivity|].
        inversion Hxd; subst. inversion Hd; subst.
        pose proof (key_le_file_then_file _ _ Ex H1). congruence. }
      exists [], (x :: files). simpl. repeat split; auto.
      constructor; [exact Sf|].
      rewrite Forall_forall in *. intros y Hy.
      apply key_le_dirs; [rewrite Ex; symmetry; auto | auto].
Qed.

(* ===================================================================== *)
(** * Theorems: the scan (C8, C9, C1) *)
(* ===================================================================== *)


(** C9.  A directory whose [os.stat] succeeds and whose [os.scandir]
    raises [PermissionError] gets a checkable, checked row with its path,
    and below it exactly one row, the non-checkable marker; and a listing
    that contains such a directory still gets one row per entry, every
    sibling with all that its own scan finds. *)
Theorem C9_permission_denied (current_path : string) (stat_info : stat_result) :
  let unreadable := FsAt (Some stat_info) RaisesPermissionError in
  fst (add_folder_item_recursive current_path unreadable) =
    mkItem (base_name_of current_path) (Some current_path) true Checked
      [perm_denied_item] /\
  isCheckable perm_denied_item = false /\
  error_marker perm_denied_item = true /\
  rows perm_denied_item = [] /\
  forall (parent_path : string) (parent_stat : stat_result)
         (before after : list (DirEntry * Fs)) (entry : DirEntry),
    let entries := before ++ (entry, unreadable) :: after in
    let parent :=
      fst (add_folder_item_recursive parent_path
             (FsAt (Some parent_stat) (Listed entries))) in
    length (rows parent) = length entries /\
    forall ef, In ef entries -> In (fst (entry_row parent_path ef)) (rows parent).
Proof.
  intros unreadable.
  do 4 (split; [reflexivity|]).
  intros parent_path parent_stat before after entry entries parent.
  split.
  - subst parent. rewrite add_folder_item_recursive_eq. cbv zeta. cbn [fst rows].
    unfold scan_listing. rewrite !length_map.
    apply Permutation_length, sorted_perm.
  - intros ef Hin.
    subst parent. rewrite add_folder_item_recursive_eq. cbv zeta. cbn [fst rows].
    unfold scan_listing. rewrite map_map.
    apply (in_map (fun x => fst (entry_row parent_path x))).
    eapply Permutation_in; [apply Permutation_sym, sorted_perm | exact Hin].
Qed.

Lemma text_lines_not_emitted (ft : string) (it : Item) :
  emits it = false -> text_lines ft [it] = [].
Proof.
  intros Hem. unfold text_lines, proxy_model, proxy_rows_for.
  cbn [accepted_rows_from].
  destruct (row_accepted ft it); [|reflexivity].
  cbn [sort_descending insert_descending length rows_loop].
  rewrite mapFromSource_eq, generate_text_recursive_v2_eq.
  rewrite Hem. reflexivity.
Qed.

(** C1 (as the code has it).  When [os.stat] of the root path raises,
    [populate_tree] still returns success: the model holds one top-level
    row, the access-error marker, which is not checkable and has no rows
    below it, so no file is listed and the export of that tree is
    empty. *)
Theorem C1_root_failure_absorbed (root_folder : string)
    (os_scandir : ScandirOutcome (DirEntry * Fs)) (filter_text : string) :
  let marker := access_error_item (base_name_of root_folder) in
  populate_tree root_folder (FsAt None os_scandir) = (true, [marker]) /\
  isCheckable marker = false /\
  error_marker marker = true /\
  rows marker = [] /\
  copy_tree_to_clipboard filter_text [marker] = None.
Proof.
  intros marker. repeat split.
  unfold copy_tree_to_clipboard.
  rewrite text_lines_not_emitted by reflexivity. reflexivity.
Qed.

(* ===================================================================== *)
(** * Theorems: the export (C2, C3) *)
(* ===================================================================== *)

Lemma all_on_path_item (P : Item -> bool) (node rest : Index) :
  forall (m : list Item) (s : Item),
    itemFromIndex m node = Some s ->
    all_on_path P m (node ++ rest) = true ->
    P s = true.
Proof.
  induction node as [|r node IH]; intros m s Hs Hall; [discriminate|].
  cbn [itemFromIndex] in Hs. cbn [app all_on_path] in Hall.
  destruct (nth_error m r) as [it|]; [|discriminate].
  apply andb_true_iff in Hall. destruct Hall as [HP Hall].
  destruct node as [|r' node].
  - inversion Hs; subst. exact HP.
  - apply (IH (rows it)); assumption.
Qed.

Lemma emitted_index_on_path (ft : string) (m : Model) (ix : Index) :
  In ix (emitted_indices ft m) ->
  all_on_path (counts_emitted ft) m ix = true.
Proof.
  unfold emitted_indices. intros Hin. apply in_map_iff in Hin.
  destruct Hin as [[ix' line] [Heq Hin]]. simpl in Heq. subst ix'.
  apply text_lines_indexed_sound in Hin. apply Hin.
Qed.

(** C2 (as the code has it).  The export reads the checkable flag and the
    check state of each item it reaches, as they are; it goes below an
    item only after emitting it.  So when the item at [node] is not
    emitted, because it is unchecked or not checkable, no line is written
    for it nor for any item below it, whatever the check states below. *)
Theorem C2_unchecked_hides_subtree (filter_text : string) (m : Model)
    (node ix : Index) (s : Item) :
  itemFromIndex m node = Some s ->
  emits s = false ->
  at_or_below node ix ->
  ~ In ix (emitted_indices filter_text m).
Proof.
  intros Hs Hem [rest ->] Hin.
  apply emitted_index_on_path in Hin.
  apply (all_on_path_item _ node rest m s Hs) in Hin.
  unfold counts_emitted in Hin. rewrite Hem, andb_false_r in Hin.
  discriminate.
Qed.

(** C3 (as the code has it).  Every exported line is the one expected
    when being last is decided among the siblings that pass the filter,
    taken in the order in which the sorted view shows them: the item
    takes the last-sibling connector, and the rows below it the blank
    extension, exactly if it is the last of these siblings in the view.
    A sibling that passes the filter counts even when it is unchecked or
    not checkable and so not emitted. *)
Theorem C3_last_among_filtered (filter_text : string) (m : Model)
    (ix : Index) (line : string) :
  In (ix, line) (text_lines_indexed filter_text m) ->
  expected_line (counts_filtered filter_text) m "" ix = Some line.
Proof.
  intros Hin. apply text_lines_indexed_sound in Hin. apply Hin.
Qed.
(* ===================================================================== *)
(** * Lemmas: check-state propagation *)
(* ===================================================================== *)

Lemma CheckState_eqb_eq (a b : CheckState) :
  CheckState_eqb a b = true <-> a = b.
Proof. destruct a, b; simpl; split; congruence. Qed.

Lemma nth_error_update_row_eq (f : Item -> Item) (r : nat) (l : list Item) :
  nth_error (update_row f r l) r = option_map f (nth_error l r).
Proof.
  revert r. induction l as [|x l IH]; intros [|r]; simpl; auto.
Qed.

Lemma nth_error_update_row_ne (f : Item -> Item) (r r' : nat) (l : list Item) :
  r <> r' -> nth_error (update_row f r l) r' = nth_error l r'.
Proof.
  revert r r'. induction l as [|x l IH]; intros [|r] [|r'] Hne; simpl; auto;
    try congruence.
Qed.

Lemma update_row_Forall (P : Item -> Prop) (f : Item -> Item) (r : nat)
    (l : list Item) :
  Forall P l -> (forall x, In x l -> P x -> P (f x)) ->
  Forall P (update_row f r l).
Proof.
  revert r. induction l as [|x l IH]; intros r Hl Hf; simpl; [constructor|].
  inversion Hl; subst.
  destruct r as [|r].
  - constructor; [apply Hf; simpl; auto | assumption].
  - constructor; [assumption|]. apply IH; [assumption|].
    intros y Hy. apply Hf. simpl. auto.
Qed.

(** The item at the updated index, and the items below it. *)
Lemma itemFromIndex_updateItem_below (f : Item -> Item) (node : Index) :
  forall (m : list Item) (n : Item) (rest : Index),
    itemFromIndex m node = Some n ->
    itemFromIndex (updateItem f node m) (node ++ rest) =
    match rest with
    | [] => Some (f n)
    | _ :: _ => itemFromIndex (rows (f n)) rest
    end.
Proof.
  induction node as [|r node IH]; intros m n rest Hn; [discriminate|].
  cbn [itemFromIndex] in Hn.
  destruct (nth_error m r) as [it|] eqn:Hr; [|discriminate].
  destruct node as [|r' node].
  - inversion Hn; subst.
    cbn [updateItem app itemFromIndex].
    rewrite nth_error_update_row_eq, Hr. simpl. reflexivity.
  - cbn [updateItem]. cbn [app itemFromIndex].
    rewrite nth_error_update_row_eq, Hr. cbn [option_map setRows rows].
    exact (IH (rows it) n rest Hn).
Qed.

(** Away from the updated index the items show what they showed. *)
Lemma itemFromIndex_updateItem_other (f : Item -> Item) (node : Index) :
  forall (m : list Item) (ix : Index),
    ~ at_or_below node ix ->
    option_map item_data (itemFromIndex (updateItem f node m) ix) =
    option_map item_data (itemFromIndex m ix).
Proof.
  induction node as [|r node IH]; intros m ix Hnot; [reflexivity|].
  destruct ix as [|r' ix]; [reflexivity|].
  destruct (Nat.eq_dec r r') as [<-|Hne].
  - destruct node as [|r2 node].
    + exfalso. apply Hnot. exists ix. reflexivity.
    + cbn [updateItem]. cbn [itemFromIndex].
      rewrite nth_error_update_row_eq.
      destruct (nth_error m r) as [it|]; [|reflexivity].
      cbn [option_map]. destruct ix as [|r3 ix]; [reflexivity|].
      cbn [setRows rows]. apply IH.
      intros [rest Hrest]. apply Hnot. exists rest.
      cbn [app]. rewrite Hrest. reflexivity.
  - assert (Hrow : forall g, nth_error (update_row g r m) r' = nth_error m r')
      by (intros g; apply nth_error_update_row_ne; exact Hne).
    destruct node as [|r2 node]; cbn [updateItem itemFromIndex];
      rewrite Hrow; reflexivity.
Qed.

Lemma update_children_checkstate_eq (it : Item) (state : CheckState) :
  update_children_checkstate it state =
  setRows it (map (cascade_row state) (rows it)).
Proof.
  destruct it as [t p c s kids]. reflexivity.
Qed.

Lemma well_formed_lookup (ix : Index) :
  forall (m : list Item) (it : Item),
    Forall well_formed m -> itemFromIndex m ix = Some it -> well_formed it.
Proof.
  induction ix as [|r ix IH]; intros m it Hm Hit; [discriminate|].
  cbn [itemFromIndex] in Hit.
  destruct (nth_error m r) as [x|] eqn:Hr; [|discriminate].
  assert (Hx : well_formed x).
  { rewrite Forall_forall in Hm. apply Hm. eapply nth_error_In; eassumption. }
  destruct ix as [|r' ix].
  - inversion Hit; subst. exact Hx.
  - apply (IH (rows x)); [|exact Hit]. apply well_formed_eq in Hx. apply Hx.
Qed.

Lemma cascade_row_rows (v : CheckState) (c : Item) :
  rows (cascade_row v c) =
  if isCheckable c && hasChildren c
  then rows (update_children_checkstate c v)
  else rows c.
Proof.
  unfold cascade_row.
  destruct (isCheckable c); [|reflexivity].
  destruct (hasChildren c);
    destruct (CheckState_eqb (checkState c) v); reflexivity.
Qed.

Lemma cascade_row_cascaded (v : CheckState) (c : Item) :
  cascaded v c (cascade_row v c).
Proof.
  unfold cascaded, cascade_row.
  destruct (isCheckable c) eqn:Hc; [|auto].
  destruct (CheckState_eqb (checkState c) v) eqn:He.
  - apply CheckState_eqb_eq in He.
    destruct (hasChildren c);
      [rewrite update_children_checkstate_eq|]; simpl; auto.
  - destruct (hasChildren c);
      [rewrite update_children_checkstate_eq|]; simpl; auto.
Qed.

(** Below a cascaded item every lookup finds the cascaded image of what
    it found before. *)
Lemma update_children_lookup (v : CheckState) (it : Item) :
  well_formed it ->
  forall ix,
    both (cascaded v)
      (itemFromIndex (rows it) ix)
      (itemFromIndex (rows (update_children_checkstate it v)) ix).
Proof.
  induction it as [t p c s rs IH] using Item_rows_ind.
  intros Hwf ix. rewrite update_children_checkstate_eq. cbn [setRows rows].
  apply well_formed_eq in Hwf. cbn [rows] in Hwf. destruct Hwf as [_ [_ Hrs]].
  destruct ix as [|r ix]; [exact I|].
  cbn [itemFromIndex]. rewrite nth_error_map.
  destruct (nth_error rs r) as [k|] eqn:Hr; [|exact I].
  cbn [option_map].
  assert (Hin : In k rs) by (eapply nth_error_In; eassumption).
  rewrite Forall_forall in IH, Hrs.
  specialize (IH k Hin (Hrs k Hin)). specialize (Hrs k Hin).
  destruct ix as [|r' ix].
  - apply cascade_row_cascaded.
  - rewrite cascade_row_rows.
    destruct (isCheckable k) eqn:Hk.
    + destruct (hasChildren k) eqn:Hh; cbn [andb].
      * apply IH.
      * rewrite (hasChildren_false k Hh), itemFromIndex_nil. exact I.
    + cbn [andb]. apply well_formed_eq in Hrs.
      destruct Hrs as [_ [Hno _]]. rewrite (Hno Hk), itemFromIndex_nil. exact I.
Qed.

Lemma setCheckState_well_formed (v : CheckState) (it : Item) :
  well_formed it -> well_formed (setCheckState it v).
Proof. rewrite !well_formed_eq. auto. Qed.

Lemma update_children_well_formed (v : CheckState) (it : Item) :
  well_formed it -> well_formed (update_children_checkstate it v).
Proof.
  induction it as [t p c s rs IH] using Item_rows_ind.
  intros Hwf. rewrite update_children_checkstate_eq.
  apply well_formed_eq in Hwf. apply well_formed_eq.
  cbn [setRows full_path isCheckable rows] in *.
  destruct Hwf as [Hp [Hc Hrs]].
  split; [exact Hp|]. split.
  - intros E. rewrite (Hc E). reflexivity.
  - apply Forall_map. rewrite Forall_forall in *. intros k Hin.
    unfold cascade_row.
    destruct (isCheckable k); [|auto].
    destruct (hasChildren k);
      destruct (CheckState_eqb (checkState k) v);
      try apply setCheckState_well_formed; auto.
Qed.

Lemma updateItem_nil (f : Item -> Item) (node : Index) :
  updateItem f node [] = [].
Proof. destruct node as [|r [|r' node]]; reflexivity. Qed.

Lemma updateItem_deeper (f : Item -> Item) (r r' : nat) (node : Index)
    (m : list Item) :
  updateItem f (r :: r' :: node) m =
  update_row (fun it => setRows it (updateItem f (r' :: node) (rows it))) r m.
Proof. reflexivity. Qed.

Lemma updateItem_well_formed (f : Item -> Item) :
  (forall it, well_formed it -> well_formed (f it)) ->
  forall node m, Forall well_formed m -> Forall well_formed (updateItem f node m).
Proof.
  intros Hf. induction node as [|r node IH]; intros m Hm; [exact Hm|].
  destruct node as [|r' node].
  - apply update_row_Forall; auto.
  - rewrite updateItem_deeper. apply update_row_Forall; [exact Hm|].
    intros it _ Hit. apply well_formed_eq in Hit. apply well_formed_eq.
    cbn [setRows full_path isCheckable rows].
    destruct Hit as [Hp [Hc Hrs]].
    split; [exact Hp|]. split.
    + intros E. rewrite (Hc E). apply updateItem_nil.
    + apply IH. exact Hrs.
Qed.

Lemma setRows_rows (it : Item) : setRows it (rows it) = it.
Proof. destruct it; reflexivity. Qed.

Lemma update_row_same (f : Item -> Item) (r : nat) (l : list Item) :
  (forall x, nth_error l r = Some x -> f x = x) -> update_row f r l = l.
Proof.
  revert r. induction l as [|y l IH]; intros [|r] H; simpl; auto.
  - rewrite (H y eq_refl). reflexivity.
  - rewrite IH; [reflexivity | exact H].
Qed.

Lemma update_row_ext_at (f g : Item -> Item) (r : nat) (l : list Item) :
  (forall x, nth_error l r = Some x -> f x = g x) ->
  update_row f r l = update_row g r l.
Proof.
  revert r. induction l as [|y l IH]; intros [|r] H; simpl; auto.
  - rewrite (H y eq_refl). reflexivity.
  - rewrite (IH r); [reflexivity | exact H].
Qed.

Lemma update_row_compose (f g : Item -> Item) (r : nat) (l : list Item) :
  update_row f r (update_row g r l) = update_row (fun x => f (g x)) r l.
Proof.
  revert r. induction l as [|y l IH]; intros [|r]; simpl; auto.
  rewrite IH. reflexivity.
Qed.

Lemma updateItem_invalid (f : Item -> Item) (node : Index) :
  forall m : list Item,
    itemFromIndex m node = None -> updateItem f node m = m.
Proof.
  induction node as [|r node IH]; intros m Hnone; [reflexivity|].
  destruct node as [|r' node].
  - cbn [updateItem]. apply update_row_same. intros x Hx.
    cbn [itemFromIndex] in Hnone. rewrite Hx in Hnone. discriminate.
  - rewrite updateItem_deeper. apply update_row_same. intros x Hx.
    cbn [itemFromIndex] in Hnone. rewrite Hx in Hnone.
    rewrite (IH (rows x) Hnone). apply setRows_rows.
Qed.

Lemma updateItem_ext_at (f g : Item -> Item) (node : Index) :
  forall (m : list Item) (n : Item),
    itemFromIndex m node = Some n -> f n = g n ->
    updateItem f node m = updateItem g node m.
Proof.
  induction node as [|r node IH]; intros m n Hn Hfg; [reflexivity|].
  cbn [itemFromIndex] in Hn.
  destruct (nth_error m r) as [x|] eqn:Hr; [|discriminate].
  destruct node as [|r' node].
  - inversion Hn; subst. cbn [updateItem]. apply update_row_ext_at.
    intros y Hy. congruence.
  - rewrite !updateItem_deeper. apply update_row_ext_at.
    intros y Hy. assert (y = x) by congruence. subst y.
    rewrite (IH (rows x) n Hn Hfg). reflexivity.
Qed.

Lemma updateItem_compose (f g : Item -> Item) (node : Index) :
  forall m : list Item,
    updateItem f node (updateItem g node m) =
    updateItem (fun x => f (g x)) node m.
Proof.
  induction node as [|r node IH]; intros m; [reflexivity|].
  destruct node as [|r' node].
  - cbn [updateItem]. apply update_row_compose.
  - rewrite !updateItem_deeper, update_row_compose.
    apply update_row_ext_at. intros x _.
    cbn [setRows rows text full_path isCheckable checkState].
    rewrite IH. reflexivity.
Qed.

Lemma updateItem_ext (f g : Item -> Item) (node : Index) (m : list Item) :
  (forall x, f x = g x) -> updateItem f node m = updateItem g node m.
Proof.
  intros Hfg.
  destruct (itemFromIndex m node) as [n|] eqn:Hn.
  - apply (updateItem_ext_at f g node m n Hn). apply Hfg.
  - rewrite !updateItem_invalid by exact Hn. reflexivity.
Qed.

Lemma update_row_length (f : Item -> Item) (r : nat) (l : list Item) :
  length (update_row f r l) = length l.
Proof.
  revert r. induction l as [|y l IH]; intros [|r]; simpl; auto.
Qed.

Lemma updateItem_length (f : Item -> Item) (node : Index) (m : list Item) :
  length (updateItem f node m) = length m.
Proof.
  destruct node as [|r [|r' node]]; [reflexivity| |].
  - apply update_row_length.
  - rewrite updateItem_deeper. apply update_row_length.
Qed.

Lemma updateItem_fixes (f : Item -> Item) (node : Index) :
  forall (m : list Item) (n : Item),
    itemFromIndex m node = Some n -> f n = n -> updateItem f node m = m.
Proof.
  induction node as [|r node IH]; intros m n Hn Hf; [reflexivity|].
  destruct node as [|r' node].
  - cbn [updateItem]. apply update_row_same. intros x Hx.
    cbn [itemFromIndex] in Hn. rewrite Hx in Hn. inversion Hn; subst. exact Hf.
  - rewrite updateItem_deeper. apply update_row_same. intros x Hx.
    cbn [itemFromIndex] in Hn. rewrite Hx in Hn.
    rewrite (IH (rows x) n Hn Hf). apply setRows_rows.
Qed.

(* ===================================================================== *)
(** * Lemmas: [set_checked] *)
(* ===================================================================== *)

(** Writing to an index that names no item does nothing. *)
Lemma set_checked_none (w : Window) (node : Index) (v : CheckState) :
  itemFromIndex (model w) node = None -> set_checked w node v = w.
Proof. intros Hn. unfold set_checked. rewrite Hn. reflexivity. Qed.

(** Writing the state the item has does nothing. *)
Lemma set_checked_same (w : Window) (node : Index) (n : Item) (v : CheckState) :
  itemFromIndex (model w) node = Some n -> checkState n = v ->
  set_checked w node v = w.
Proof.
  intros Hn Hv. unfold set_checked. rewrite Hn.
  apply CheckState_eqb_eq in Hv. rewrite Hv. reflexivity.
Qed.

Lemma CheckState_eqb_neq (a b : CheckState) :
  CheckState_eqb a b = false <-> a <> b.
Proof. destruct a, b; simpl; split; congruence. Qed.

Lemma set_checked_item_same (blocked : bool) (v : CheckState) (n : Item) :
  checkState n = v -> set_checked_item blocked v n = n.
Proof.
  intros Hv. unfold set_checked_item.
  apply CheckState_eqb_eq in Hv. rewrite Hv. reflexivity.
Qed.

Lemma set_checked_item_changed (blocked : bool) (v : CheckState) (n : Item) :
  checkState n <> v ->
  set_checked_item blocked v n =
  if blocked then setCheckState n v else checked_node n v.
Proof.
  intros Hv. unfold set_checked_item.
  apply CheckState_eqb_neq in Hv. rewrite Hv. reflexivity.
Qed.

(** The block flag is the same before and after [set_checked]. *)
Lemma set_checked_block (w : Window) (node : Index) (v : CheckState) :
  block_item_changed_signal (set_checked w node v) =
  block_item_changed_signal w.
Proof.
  unfold set_checked.
  destruct (itemFromIndex (model w) node) as [n|]; [|reflexivity].
  destruct (CheckState_eqb (checkState n) v); [reflexivity|].
  unfold handle_item_changed. cbn [block_item_changed_signal model].
  destruct (block_item_changed_signal w) eqn:Hb; [reflexivity|].
  destruct (itemFromIndex _ node) as [it|]; [|reflexivity].
  destruct (isCheckable it); reflexivity.
Qed.

(** The model after [set_checked]: the item at the index replaced by
    what [set_checked_item] makes of it. *)
Lemma set_checked_model (w : Window) (node : Index) (v : CheckState) :
  model (set_checked w node v) =
  updateItem (set_checked_item (block_item_changed_signal w) v) node (model w).
Proof.
  destruct (itemFromIndex (model w) node) as [n|] eqn:Hn.
  - destruct (CheckState_eqb (checkState n) v) eqn:He.
    + apply CheckState_eqb_eq in He.
      rewrite (set_checked_same w node n v Hn He). symmetry.
      apply (updateItem_fixes _ node (model w) n Hn).
      apply set_checked_item_same. exact He.
    + pose proof (proj1 (CheckState_eqb_neq _ _) He) as Hne.
      pose proof (itemFromIndex_updateItem_below
                    (fun it => setCheckState it v) node (model w) n [] Hn) as H1.
      rewrite app_nil_r in H1.
      unfold set_checked. rewrite Hn, He.
      unfold handle_item_changed. cbn [block_item_changed_signal model].
      destruct (block_item_changed_signal w); cbn [model].
      * apply (updateItem_ext_at _ _ node (model w) n Hn).
        rewrite (set_checked_item_changed true v n Hne). reflexivity.
      * rewrite H1.
        change (isCheckable (setCheckState n v)) with (isCheckable n).
        change (hasChildren (setCheckState n v)) with (hasChildren n).
        change (checkState (setCheckState n v)) with v.
        rewrite (updateItem_ext_at (set_checked_item false v)
                   (fun x => checked_node x v) node (model w) n Hn
                   (set_checked_item_changed false v n Hne)).
        destruct (isCheckable n) eqn:Hc; cbn [model].
        -- destruct (hasChildren n) eqn:Hh.
           ++ rewrite updateItem_compose.
              apply (updateItem_ext_at _ _ node (model w) n Hn).
              unfold checked_node. rewrite Hc, Hh. reflexivity.
           ++ apply (updateItem_ext_at _ _ node (model w) n Hn).
              unfold checked_node. rewrite Hc, Hh. reflexivity.
        -- apply (updateItem_ext_at _ _ node (model w) n Hn).
           unfold checked_node. rewrite Hc. reflexivity.
  - rewrite (set_checked_none w node v Hn). symmetry.
    apply updateItem_invalid. exact Hn.
Qed.

Lemma checked_node_data (n : Item) (v : CheckState) :
  text (checked_node n v) = text n /\
  full_path (checked_node n v) = full_path n /\
  isCheckable (checked_node n v) = isCheckable n /\
  checkState (checked_node n v) = v.
Proof.
  unfold checked_node.
  destruct (isCheckable n && hasChildren n);
    [rewrite update_children_checkstate_eq|]; simpl; auto.
Qed.

(** After [set_checked] the item has the state written and shows the
    rest as before. *)
Lemma set_checked_item_data (blocked : bool) (v : CheckState) (n : Item) :
  text (set_checked_item blocked v n) = text n /\
  full_path (set_checked_item blocked v n) = full_path n /\
  isCheckable (set_checked_item blocked v n) = isCheckable n /\
  checkState (set_checked_item blocked v n) = v.
Proof.
  unfold set_checked_item.
  destruct (CheckState_eqb (checkState n) v) eqn:He.
  - apply CheckState_eqb_eq in He. auto.
  - destruct blocked; [simpl; auto | apply checked_node_data].
Qed.

Lemma set_checked_item_well_formed (blocked : bool) (v : CheckState)
    (n : Item) :
  well_formed n -> well_formed (set_checked_item blocked v n).
Proof.
  intros Hn. unfold set_checked_item, checked_node.
  destruct (CheckState_eqb (checkState n) v); [exact Hn|].
  destruct blocked; [apply setCheckState_well_formed; exact Hn|].
  destruct (isCheckable n && hasChildren n).
  - apply update_children_well_formed, setCheckState_well_formed. exact Hn.
  - apply setCheckState_well_formed. exact Hn.
Qed.

(** Between two operations the block flag is off and every tree has the
    shape the scan gave it. *)
Lemma reachable_invariant (w : Window) :
  reachable w ->
  block_item_changed_signal w = false /\ Forall well_formed (model w).
Proof.
  induction 1 as [root_folder fs | w node value Hw [Hb Hm]].
  - split; [reflexivity|]. simpl. constructor; [|constructor].
    apply scan_well_formed.
  - split; [rewrite set_checked_block; exact Hb|].
    rewrite set_checked_model. apply updateItem_well_formed; [|exact Hm].
    intros it. apply set_checked_item_well_formed.
Qed.

Lemma set_checked_lookup (w : Window) (node : Index) (n : Item)
    (v : CheckState) (rest : Index) :
  block_item_changed_signal w = false ->
  itemFromIndex (model w) node = Some n ->
  itemFromIndex (model (set_checked w node v)) (node ++ rest) =
  match rest with
  | [] => Some (set_checked_item false v n)
  | _ :: _ => itemFromIndex (rows (set_checked_item false v n)) rest
  end.
Proof.
  intros Hb Hn. rewrite set_checked_model, Hb.
  apply itemFromIndex_updateItem_below. exact Hn.
Qed.

Lemma set_checked_lookup_node (w : Window) (node : Index) (n : Item)
    (v : CheckState) :
  block_item_changed_signal w = false ->
  itemFromIndex (model w) node = Some n ->
  itemFromIndex (model (set_checked w node v)) node =
  Some (set_checked_item false v n).
Proof.
  intros Hb Hn.
  pose proof (set_checked_lookup w node n v [] Hb Hn) as H.
  rewrite app_nil_r in H. exact H.
Qed.

(** Below the node, a [set_checked] that changes the state of the node
    leaves the cascaded image of what was there. *)
Lemma set_checked_below (w : Window) (node : Index) (n : Item)
    (v : CheckState) (r : nat) (rest : Index) :
  block_item_changed_signal w = false ->
  Forall well_formed (model w) ->
  itemFromIndex (model w) node = Some n ->
  checkState n <> v ->
  both (cascaded v)
    (itemFromIndex (model w) (node ++ r :: rest))
    (itemFromIndex (model (set_checked w node v)) (node ++ r :: rest)).
Proof.
  intros Hb Hm Hn Hne.
  rewrite (set_checked_lookup w node n v (r :: rest) Hb Hn).
  rewrite (set_checked_item_changed false v n Hne).
  rewrite (itemFromIndex_app node (model w) n (r :: rest) Hn).
  pose proof (well_formed_lookup node (model w) n Hm Hn) as Hwf.
  unfold checked_node.
  destruct (isCheckable n) eqn:Hc; cbn [andb].
  - destruct (hasChildren n) eqn:Hh.
    + apply (update_children_lookup v (setCheckState n v)).
      apply setCheckState_well_formed. exact Hwf.
    + cbn [setCheckState rows].
      rewrite (hasChildren_false n Hh), itemFromIndex_nil. exact I.
  - cbn [setCheckState rows].
    apply well_formed_eq in Hwf. destruct Hwf as [_ [Hno _]].
    rewrite (Hno Hc), itemFromIndex_nil. exact I.
Qed.

(** Away from the node, [set_checked] changes nothing an item shows. *)
Lemma set_checked_other (w : Window) (node ix : Index) (v : CheckState) :
  ~ at_or_below node ix ->
  option_map item_data (itemFromIndex (model (set_checked w node v)) ix) =
  option_map item_data (itemFromIndex (model w) ix).
Proof.
  intros Hnot. rewrite set_checked_model.
  apply itemFromIndex_updateItem_other. exact Hnot.
Qed.

(** A checkable item at or below the node is found again, at the same
    index, with the new state, when the state of the node changes. *)
Lemma set_checked_descendant (w : Window) (node ix : Index) (n d : Item)
    (v : CheckState) :
  block_item_changed_signal w = false ->
  Forall well_formed (model w) ->
  itemFromIndex (model w) node = Some n ->
  checkState n <> v ->
  at_or_below node ix ->
  itemFromIndex (model w) ix = Some d ->
  isCheckable d = true ->
  exists d',
    itemFromIndex (model (set_checked w node v)) ix = Some d' /\
    checkState d' = v /\ text d' = text d /\ isCheckable d' = true.
Proof.
  intros Hb Hm Hn Hne [rest ->] Hd Hc.
  destruct rest as [|r rest].
  - rewrite app_nil_r in *.
    rewrite (set_checked_lookup_node w node n v Hb Hn).
    assert (d = n) by congruence. subst d.
    destruct (set_checked_item_data false v n) as [Ht [_ [Hck Hs]]].
    exists (set_checked_item false v n). repeat split; congruence.
  - pose proof (set_checked_below w node n v r rest Hb Hm Hn Hne) as H.
    rewrite Hd in H.
    destruct (itemFromIndex (model (set_checked w node v)) (node ++ r :: rest))
      as [d'|]; [|contradiction].
    destruct H as [Ht [_ [Hck Hs]]]. rewrite Hc in Hs.
    exists d'. repeat split; congruence.
Qed.

(** An item below the node that is not checkable is left as it is. *)
Lemma set_checked_not_checkable (w : Window) (node ix : Index) (n d : Item)
    (v : CheckState) :
  block_item_changed_signal w = false ->
  Forall well_formed (model w) ->
  itemFromIndex (model w) node = Some n ->
  at_or_below node ix -> ix <> node ->
  itemFromIndex (model w) ix = Some d ->
  isCheckable d = false ->
  itemFromIndex (model (set_checked w node v)) ix = Some d.
Proof.
  intros Hb Hm Hn [rest ->] Hix Hd Hc.
  destruct (CheckState_eqb (checkState n) v) eqn:He.
  - apply CheckState_eqb_eq in He.
    rewrite (set_checked_same w node n v Hn He). exact Hd.
  - apply CheckState_eqb_neq in He.
    destruct rest as [|r rest]; [rewrite app_nil_r in Hix; congruence|].
    pose proof (set_checked_below w node n v r rest Hb Hm Hn He) as H.
    rewrite Hd in H.
    destruct (itemFromIndex (model (set_checked w node v)) (node ++ r :: rest))
      as [d'|]; [|contradiction].
    destruct H as [_ [_ [_ Hs]]]. rewrite Hc in Hs. congruence.
Qed.

(** Checking and then unchecking the node leaves every checkable item at
    or below it unchecked, whatever the states were. *)
Lemma set_checked_then_unchecked (w : Window) (node ix : Index) (n d : Item) :
  reachable w ->
  itemFromIndex (model w) node = Some n ->
  at_or_below node ix ->
  itemFromIndex (model w) ix = Some d ->
  isCheckable d = true ->
  exists d',
    itemFromIndex
      (model (set_checked (set_checked w node Checked) node Unchecked)) ix
      = Some d' /\
    checkState d' = Unchecked /\ isCheckable d' = true.
Proof.
  intros Hw Hn Hbelow Hd Hc.
  destruct (reachable_invariant w Hw) as [Hb Hm].
  destruct (CheckState_eqb (checkState n) Checked) eqn:He.
  - apply CheckState_eqb_eq in He.
    rewrite (set_checked_same w node n Checked Hn He).
    assert (Hne : checkState n <> Unchecked) by congruence.
    destruct (set_checked_descendant w node ix n d Unchecked
                Hb Hm Hn Hne Hbelow Hd Hc) as [d' [Hd' [Hs [_ Hc']]]].
    exists d'. auto.
  - apply CheckState_eqb_neq in He.
    destruct (set_checked_descendant w node ix n d Checked
                Hb Hm Hn He Hbelow Hd Hc) as [d1 [Hd1 [_ [_ Hc1]]]].
    assert (Hw1 : reachable (set_checked w node Checked))
      by (constructor; exact Hw).
    destruct (reachable_invariant _ Hw1) as [Hb1 Hm1].
    pose proof (set_checked_lookup_node w node n Checked Hb Hn) as Hn1.
    assert (Hne : checkState (set_checked_item false Checked n) <> Unchecked).
    { destruct (set_checked_item_data false Checked n) as [_ [_ [_ Hs]]].
      rewrite Hs. discriminate. }
    destruct (set_checked_descendant _ node ix _ d1 Unchecked
                Hb1 Hm1 Hn1 Hne Hbelow Hd1 Hc1) as [d2 [Hd2 [Hs2 [_ Hc2]]]].
    exists d2. auto.
Qed.

(* ===================================================================== *)
(** * Theorem: check-state propagation (C5) *)
(* ===================================================================== *)

(** C5 (as the code has it).  In any window the program can be in,
    writing the state [v] into the item at [node] leaves that item with
    state [v]; no item that is not checkable changes, and no item
    elsewhere, in particular none above [node], shows anything else than
    before.  When [v] differs from the state the item had, every
    checkable item below it, at any depth, is found again with state
    [v]; when [v] is the state the item had, nothing changes at all, so
    the items below keep their states.  Writing [Checked] and then
    [Unchecked] leaves every checkable item at or below [node]
    unchecked. *)
Theorem C5_set_checked_cascades (w : Window) (node : Index) (n : Item)
    (v : CheckState) :
  reachable w ->
  itemFromIndex (model w) node = Some n ->
  let w' := set_checked w node v in
  (exists n',
      itemFromIndex (model w') node = Some n' /\
      checkState n' = v /\ text n' = text n /\
      isCheckable n' = isCheckable n) /\
  (checkState n <> v ->
   forall ix d,
      at_or_below node ix ->
      itemFromIndex (model w) ix = Some d ->
      isCheckable d = true ->
      exists d',
        itemFromIndex (model w') ix = Some d' /\
        checkState d' = v /\ text d' = text d /\ isCheckable d' = true) /\
  (checkState n = v -> w' = w) /\
  (forall ix d,
      at_or_below node ix -> ix <> node ->
      itemFromIndex (model w) ix = Some d ->
      isCheckable d = false ->
      itemFromIndex (model w') ix = Some d) /\
  (forall ix,
      ~ at_or_below node ix ->
      option_map item_data (itemFromIndex (model w') ix) =
      option_map item_data (itemFromIndex (model w) ix)) /\
  (forall ix d,
      at_or_below node ix ->
      itemFromIndex (model w) ix = Some d ->
      isCheckable d = true ->
      exists d',
        itemFromIndex
          (model (set_checked (set_checked w node Checked) node Unchecked)) ix
          = Some d' /\
        checkState d' = Unchecked /\ isCheckable d' = true).
Proof.
  intros Hw Hn w'.
  destruct (reachable_invariant w Hw) as [Hb Hm].
  split; [|split; [|split; [|split; [|split]]]].
  - exists (set_checked_item false v n).
    destruct (set_checked_item_data false v n) as [Ht [_ [Hck Hs]]].
    split; [|auto].
    subst w'. apply (set_checked_lookup_node w node n v Hb Hn).
  - intros Hne ix d Hbelow Hd Hc.
    exact (set_checked_descendant w node ix n d v Hb Hm Hn Hne Hbelow Hd Hc).
  - intros Hv. subst w'. apply (set_checked_same w node n v Hn Hv).
  - intros ix d Hbelow Hix Hd Hc.
    exact (set_checked_not_checkable w node ix n d v Hb Hm Hn Hbelow Hix Hd Hc).
  - intros ix Hnot. apply set_checked_other. exact Hnot.
  - intros ix d Hbelow Hd Hc.
    exact (set_checked_then_unchecked w node ix n d Hw Hn Hbelow Hd Hc).
Qed.

(* ===================================================================== *)
(** * Theorem: error markers and the export (C10) *)
(* ===================================================================== *)

Lemma all_on_path_lookup (P : Item -> bool) (ix : Index) :
  forall m : list Item,
    all_on_path P m ix = true ->
    exists it, itemFromIndex m ix = Some it /\ P it = true.
Proof.
  induction ix as [|r ix IH]; intros m H; [discriminate|].
  cbn [all_on_path itemFromIndex] in *.
  destruct (nth_error m r) as [x|]; [|discriminate].
  apply andb_true_iff in H. destruct H as [HP H].
  destruct ix as [|r' ix].
  - exists x. auto.
  - apply IH. exact H.
Qed.

(** C10.  In any window the program can be in, after a scan and any
    check-state changes, the rows built in the [except] branches of the
    scan are error markers, every error marker in the tree is not
    checkable and has no rows, and every exported line belongs to an item
    that is checkable and checked and is not an error marker. *)
Theorem C10_error_markers_not_exported (w : Window) (filter_text : string) :
  reachable w ->
  (forall base_name name,
      error_marker (access_error_item base_name) = true /\
      error_marker (os_error_item name) = true /\
      error_marker perm_denied_item = true /\
      error_marker scan_error_item = true) /\
  (forall ix it,
      itemFromIndex (model w) ix = Some it ->
      error_marker it = true ->
      isCheckable it = false /\ rows it = []) /\
  (forall ix,
      In ix (emitted_indices filter_text (model w)) ->
      exists it,
        itemFromIndex (model w) ix = Some it /\
        isCheckable it = true /\ checkState it = Checked /\
        error_marker it = false).
Proof.
  intros Hw. destruct (reachable_invariant w Hw) as [_ Hm].
  split; [intros; repeat split|]. split.
  - intros ix it Hit Herr.
    apply (well_formed_lookup ix (model w) it Hm), well_formed_eq in Hit.
    destruct Hit as [Hp [Hc _]]. unfold error_marker in Herr.
    destruct (full_path it); [discriminate|]. auto.
  - intros ix Hin. apply emitted_index_on_path, all_on_path_lookup in Hin.
    destruct Hin as [it [Hit HP]]. exists it.
    unfold counts_emitted, emits in HP.
    apply andb_true_iff in HP. destruct HP as [_ HP].
    apply andb_true_iff in HP. destruct HP as [Hc Hs].
    apply CheckState_eqb_eq in Hs.
    repeat split; auto.
    apply (well_formed_lookup ix (model w) it Hm), well_formed_eq in Hit.
    destruct Hit as [Hp _]. unfold error_marker.
    destruct (full_path it); [reflexivity|]. rewrite Hp in Hc; congruence.
Qed.

(* ===================================================================== *)
(** * More on the export: which items get a line *)
(* ===================================================================== *)

Section ExportComplete.
Variable ft : string.

(** What one call on the proxy row of a source item does emit. *)
Let call_complete (it : Item) : Prop :=
  forall sp row prefix last,
    emits it = true ->
    forall ix',
      match ix' with
      | [] => True
      | _ :: _ => all_on_path (counts_emitted ft) (rows it) ix' = true
      end ->
      exists line,
        In (sp ++ row :: ix', line)
           (generate_indexed sp (mapFromSource ft row it) prefix last).

Lemma rows_loop_indexed_complete (l : list Item) :
  Forall call_complete l ->
  forall sp prefix r ix',
    all_on_path (counts_emitted ft) l (r :: ix') = true ->
    exists line,
      In (sp ++ r :: ix', line)
         (rows_loop_indexed sp prefix (length (proxy_rows_for ft l)) 0
            (proxy_rows_for ft l)).
Proof.
  intros Hl sp prefix r ix' Hall.
  cbn [all_on_path] in Hall.
  destruct (nth_error l r) as [it|] eqn:Hr; [|discriminate].
  apply andb_true_iff in Hall. destruct Hall as [HP Hall].
  unfold counts_emitted in HP. apply andb_true_iff in HP.
  destruct HP as [Hacc Hem].
  assert (Hp : In (mapFromSource ft r it) (proxy_rows_for ft l)).
  { apply proxy_rows_for_In. exists r, it. auto. }
  apply In_nth_error in Hp. destruct Hp as [j Hj].
  rewrite Forall_forall in Hl.
  destruct (Hl it (nth_error_In _ _ Hr) sp r prefix
              (0 + j =? length (proxy_rows_for ft l) - 1) Hem ix')
    as [line Hline].
  { destruct ix'; [exact I | exact Hall]. }
  exists line. apply rows_loop_indexed_In.
  exists j, (mapFromSource ft r it). split; assumption.
Qed.

Lemma generate_indexed_complete (it : Item) : call_complete it.
Proof.
  induction it as [t p c s rs IH] using Item_rows_ind.
  intros sp row prefix last Hem ix' Hall.
  rewrite mapFromSource_eq, generate_indexed_eq, Hem.
  destruct ix' as [|r ix'].
  - eexists. left. reflexivity.
  - destruct (rows_loop_indexed_complete rs IH (sp ++ [row])
                (prefix ++ indent last) r ix' Hall)
      as [line Hline].
    exists line. right.
    rewrite <- app_assoc in Hline. exact Hline.
Qed.

(** An item that, like every item above it, passes the filter, is
    checkable and is checked, gets a line. *)
Lemma text_lines_indexed_complete (m : Model) (ix : Index) :
  all_on_path (counts_emitted ft) m ix = true ->
  In ix (emitted_indices ft m).
Proof.
  intros Hall. destruct ix as [|r ix']; [discriminate|].
  destruct (rows_loop_indexed_complete m) with
    (sp := @nil nat) (prefix := "") (r := r) (ix' := ix')
    as [line Hline].
  - apply Forall_forall. intros it _. apply generate_indexed_complete.
  - exact Hall.
  - unfold emitted_indices, text_lines_indexed, proxy_model.
    apply in_map_iff. exists (r :: ix', line). split; [reflexivity | exact Hline].
Qed.
End ExportComplete.

Lemma itemFromIndex_descendant (ix : Index) :
  forall (x it : Item),
    itemFromIndex (rows x) ix = Some it -> descendant it x.
Proof.
  induction ix as [|r ix IH]; intros x it H; [discriminate|].
  cbn [itemFromIndex] in H.
  destruct (nth_error (rows x) r) as [k|] eqn:Hr; [|discriminate].
  assert (Hin : In k (rows x)) by (eapply nth_error_In; eassumption).
  destruct ix as [|r' ix].
  - inversion H; subst. apply desc_row. exact Hin.
  - eapply desc_below; [exact Hin | apply IH; exact H].
Qed.

Lemma all_on_path_andb (P Q : Item -> bool) (ix : Index) :
  forall m : list Item,
    all_on_path (fun it => P it && Q it) m ix =
    all_on_path P m ix && all_on_path Q m ix.
Proof.
  induction ix as [|r ix IH]; intros m; [reflexivity|].
  cbn [all_on_path]. destruct (nth_error m r) as [x|]; [|reflexivity].
  destruct ix as [|r' ix].
  - rewrite !andb_true_r. reflexivity.
  - rewrite IH. destruct (P x), (Q x); simpl; try reflexivity.
    rewrite andb_false_r. reflexivity.
Qed.

(** Passing the filter is inherited upward, so it holds all along the
    path as soon as it holds at the end of the path. *)
Lemma all_on_path_accepted (ft : string) (ix : Index) :
  forall (m : list Item) (it : Item),
    itemFromIndex m ix = Some it ->
    row_accepted ft it = true ->
    all_on_path (row_accepted ft) m ix = true.
Proof.
  induction ix as [|r ix IH]; intros m it Hit Hacc; [discriminate|].
  cbn [itemFromIndex] in Hit. cbn [all_on_path].
  destruct (nth_error m r) as [x|]; [|discriminate].
  destruct ix as [|r' ix].
  - inversion Hit; subst. rewrite Hacc. reflexivity.
  - rewrite (IH (rows x) it Hit Hacc), andb_true_r.
    eapply row_accepted_upward; [|exact Hacc].
    eapply itemFromIndex_descendant. exact Hit.
Qed.

(** X1.  An item has a line in the export exactly when it passes the
    filter and it and every item above it are checkable and checked. *)
Theorem export_line_iff (filter_text : string) (m : Model) (ix : Index) :
  In ix (emitted_indices filter_text m) <->
  all_on_path emits m ix = true /\
  exists it, itemFromIndex m ix = Some it /\ row_accepted filter_text it = true.
Proof.
  split.
  - intros Hin. apply emitted_index_on_path in Hin.
    unfold counts_emitted in Hin. rewrite all_on_path_andb in Hin.
    apply andb_true_iff in Hin. destruct Hin as [Hacc Hem].
    split; [exact Hem|]. apply all_on_path_lookup. exact Hacc.
  - intros [Hem [it [Hit Hacc]]].
    apply text_lines_indexed_complete.
    unfold counts_emitted. rewrite all_on_path_andb, Hem, andb_true_r.
    eapply all_on_path_accepted; eassumption.
Qed.

(** X2.  Filtering only removes lines: the items exported under a filter
    are those exported without a filter whose item passes the filter. *)
Theorem export_filter_restricts (filter_text : string) (m : Model) (ix : Index) :
  In ix (emitted_indices filter_text m) <->
  In ix (emitted_indices "" m) /\
  exists it, itemFromIndex m ix = Some it /\ row_accepted filter_text it = true.
Proof.
  split.
  - intros Hin. apply emitted_index_on_path in Hin.
    unfold counts_emitted in Hin. rewrite all_on_path_andb in Hin.
    apply andb_true_iff in Hin. destruct Hin as [Hacc Hem].
    apply all_on_path_lookup in Hacc. split; [|exact Hacc].
    destruct Hacc as [it [Hit _]].
    apply text_lines_indexed_complete.
    unfold counts_emitted. rewrite all_on_path_andb, Hem, andb_true_r.
    eapply all_on_path_accepted; [exact Hit | apply row_accepted_empty].
  - intros [Hin [it [Hit Hacc]]].
    apply emitted_index_on_path in Hin.
    unfold counts_emitted in Hin. rewrite all_on_path_andb in Hin.
    apply andb_true_iff in Hin. destruct Hin as [_ Hem].
    apply text_lines_indexed_complete.
    unfold counts_emitted. rewrite all_on_path_andb, Hem, andb_true_r.
    eapply all_on_path_accepted; eassumption.
Qed.

(* ===================================================================== *)
(** * More on the export: when nothing is copied *)
(* ===================================================================== *)

Lemma append_nonempty (a b : string) : b <> "" -> (a ++ b)%string <> "".
Proof. destruct a; simpl; [auto | discriminate]. Qed.

Lemma expected_line_nonempty (counts : Item -> bool) (ix : Index) :
  forall (m : list Item) (prefix line : string),
    expected_line counts m prefix ix = Some line -> line <> "".
Proof.
  induction ix as [|r ix IH]; intros m prefix line H; [discriminate|].
  cbn [expected_line] in H.
  destruct (nth_error m r) as [x|]; [|discriminate].
  destruct ix as [|r' ix].
  - inversion H; subst. apply append_nonempty.
    unfold connector, connector_last, connector_mid.
    destruct (last_in_view _ _ _); discriminate.
  - eapply IH. exact H.
Qed.

Lemma text_lines_nonempty (ft : string) (m : Model) (line : string) :
  In line (text_lines ft m) -> line <> "".
Proof.
  rewrite <- text_lines_indexed_lines. intros Hin.
  apply in_map_iff in Hin. destruct Hin as [[ix l] [Heq Hin]].
  simpl in Heq. subst l.
  apply text_lines_indexed_sound in Hin. destruct Hin as [_ Hline].
  eapply expected_line_nonempty. exact Hline.
Qed.

Lemma join_lines_is_empty (lines : list string) :
  (forall l, In l lines -> l <> "") ->
  PyStr.is_empty (PyStr.join_lines lines) = true <-> lines = [].
Proof.
  intros Hne. split; [|intros ->; reflexivity].
  destruct lines as [|l [|l2 rest]]; [reflexivity| |].
  - simpl. intros H. apply is_empty_true in H.
    exfalso. apply (Hne l); [left; reflexivity | exact H].
  - cbn [PyStr.join_lines]. intros H. apply is_empty_true in H.
    exfalso. revert H. apply append_nonempty. discriminate.
Qed.

Lemma forallb_false_exists {A : Type} (f : A -> bool) (l : list A) :
  forallb f l = false -> exists x, In x l /\ f x = false.
Proof.
  induction l as [|x l IH]; simpl; [discriminate|].
  destruct (f x) eqn:E.
  - intros H. destruct (IH H) as [y [Hy Hf]]. exists y. auto.
  - intros _. exists x. auto.
Qed.

Lemma text_lines_nil_iff (ft : string) (m : Model) :
  text_lines ft m = [] <->
  forall it, In it m -> row_accepted ft it = true -> emits it = false.
Proof.
  rewrite <- text_lines_indexed_lines. split.
  - intros Hnil it Hin Hacc.
    destruct (emits it) eqn:Hem; [|reflexivity]. exfalso.
    apply In_nth_error in Hin. destruct Hin as [r Hr].
    assert (Hix : In [r] (emitted_indices ft m)).
    { apply text_lines_indexed_complete. cbn [all_on_path]. rewrite Hr.
      unfold counts_emitted. rewrite Hacc, Hem. reflexivity. }
    unfold emitted_indices in Hix.
    destruct (text_lines_indexed ft m); [contradiction | discriminate].
  - intros Hno.
    destruct (text_lines_indexed ft m) as [|[ix line] rest] eqn:E; [reflexivity|].
    exfalso.
    assert (Hin : In (ix, line) (text_lines_indexed ft m))
      by (rewrite E; left; reflexivity).
    apply text_lines_indexed_sound in Hin. destruct Hin as [Hall _].
    destruct ix as [|r ix]; [discriminate|].
    cbn [all_on_path] in Hall.
    destruct (nth_error m r) as [x|] eqn:Hr; [|discriminate].
    apply andb_true_iff in Hall. destruct Hall as [HP _].
    unfold counts_emitted in HP. apply andb_true_iff in HP.
    destruct HP as [Hacc Hem].
    rewrite (Hno x (nth_error_In _ _ Hr) Hacc) in Hem. discriminate.
Qed.

(** X3.  [copy_tree_to_clipboard] copies nothing exactly when no
    top-level row passes the filter and is checkable and checked; and
    every line of the export is non-empty. *)
Theorem copy_nothing_iff (filter_text : string) (m : Model) :
  (copy_tree_to_clipboard filter_text m = None <->
   forall it, In it m -> row_accepted filter_text it = true ->
              emits it = false) /\
  (forall line, In line (text_lines filter_text m) -> line <> "").
Proof.
  split; [|intros line; apply text_lines_nonempty].
  rewrite <- text_lines_nil_iff.
  rewrite <- (join_lines_is_empty (text_lines filter_text m))
    by (intros l; apply text_lines_nonempty).
  unfold copy_tree_to_clipboard.
  destruct (PyStr.is_empty (PyStr.join_lines (text_lines filter_text m)));
    split; congruence.
Qed.
(* ===================================================================== *)
(** * More on the scan: the state of a fresh tree *)
(* ===================================================================== *)

Lemma as_scanned_eq (it : Item) :
  as_scanned it <->
  (if isCheckable it then checkState it = Checked /\ full_path it <> None
   else checkState it = Unchecked /\ full_path it = None /\ rows it = []) /\
  Forall as_scanned (rows it).
Proof.
  destruct it as [t p c s kids]. simpl.
  assert (H : (fix all_rows (l : list Item) : Prop :=
                 match l with
                 | [] => True
                 | k :: l' => as_scanned k /\ all_rows l'
                 end) kids <-> Forall as_scanned kids).
  { induction kids as [|k kids IH]; simpl.
    - split; [constructor | trivial].
    - rewrite IH. split.
      + intros [H1 H2]. constructor; assumption.
      + intros H. inversion H; subst. split; assumption. }
  rewrite H. reflexivity.
Qed.

Lemma entry_row_as_scanned (current_path : string) (ef : DirEntry * Fs) :
  (forall p, as_scanned (fst (add_folder_item_recursive p (snd ef)))) ->
  as_scanned (fst (entry_row current_path ef)).
Proof.
  intros IH. unfold entry_row, scan_entry.
  destruct (entry_stat (fst ef)).
  - destruct (entry_is_dir (fst ef)); simpl.
    + repeat split; try discriminate. apply IH.
    + repeat split; discriminate.
  - simpl. repeat split; reflexivity.
Qed.

Lemma scan_as_scanned (fs : Fs) :
  forall current_path,
    as_scanned (fst (add_folder_item_recursive current_path fs)).
Proof.
  induction fs as [st entries IH | st | st] using Fs_listing_ind;
    intros current_path; rewrite add_folder_item_recursive_eq;
    destruct st as [st|]; try (simpl; repeat split; congruence).
  cbv zeta. cbn [fst]. apply as_scanned_eq.
  cbn [full_path isCheckable checkState rows].
  repeat split; try discriminate.
  unfold scan_listing. rewrite map_map.
  apply Forall_map, Forall_forall. intros ef Hin.
  apply entry_row_as_scanned.
  apply sorted_In in Hin.
  rewrite Forall_forall in IH. exact (IH ef Hin).
Qed.

Lemma as_scanned_lookup (ix : Index) :
  forall (m : list Item) (it : Item),
    Forall as_scanned m -> itemFromIndex m ix = Some it -> as_scanned it.
Proof.
  induction ix as [|r ix IH]; intros m it Hm Hit; [discriminate|].
  cbn [itemFromIndex] in Hit.
  destruct (nth_error m r) as [x|] eqn:Hr; [|discriminate].
  assert (Hx : as_scanned x).
  { rewrite Forall_forall in Hm. apply Hm. eapply nth_error_In; eassumption. }
  destruct ix as [|r' ix].
  - inversion Hit; subst. exact Hx.
  - apply (IH (rows x)); [|exact Hit]. apply as_scanned_eq in Hx. apply Hx.
Qed.

(** X4.  Right after a scan every row of the tree is either checkable,
    checked and carrying its path, or not checkable, unchecked, without
    path data and without rows below it. *)
Theorem scan_leaves_rows_checked_or_marked (root_folder : string) (fs : Fs)
    (ix : Index) (it : Item) :
  itemFromIndex (snd (populate_tree root_folder fs)) ix = Some it ->
  if isCheckable it
  then checkState it = Checked /\ full_path it <> None
  else checkState it = Unchecked /\ full_path it = None /\ rows it = [].
Proof.
  intros Hit.
  apply as_scanned_lookup in Hit.
  - apply as_scanned_eq in Hit. apply Hit.
  - simpl. constructor; [apply scan_as_scanned | constructor].
Qed.

Lemma all_on_path_emits_scanned (ix : Index) :
  forall m : list Item,
    Forall as_scanned m ->
    (all_on_path emits m ix = true <->
     exists it, itemFromIndex m ix = Some it /\ isCheckable it = true).
Proof.
  induction ix as [|r ix IH]; intros m Hm.
  - split; [discriminate | intros [it [H _]]; discriminate].
  - cbn [all_on_path itemFromIndex].
    destruct (nth_error m r) as [x|] eqn:Hr;
      [|split; [discriminate | intros [it [H _]]; discriminate]].
    assert (Hx : as_scanned x).
    { rewrite Forall_forall in Hm. apply Hm. eapply nth_error_In; eassumption. }
    apply as_scanned_eq in Hx. destruct Hx as [Hx Hrows].
    destruct ix as [|r' ix].
    + rewrite andb_true_r. unfold emits. split.
      * intros H. apply andb_true_iff in H. exists x. tauto.
      * intros [it [Heq Hc]]. inversion Heq; subst.
        rewrite Hc in *. destruct Hx as [-> _]. reflexivity.
    + rewrite andb_true_iff, (IH (rows x) Hrows). split; [tauto|].
      intros Hex. split; [|exact Hex].
      destruct Hex as [it [Hit _]]. unfold emits.
      destruct (isCheckable x).
      * destruct Hx as [-> _]. reflexivity.
      * destruct Hx as [_ [_ Hnil]]. rewrite Hnil, itemFromIndex_nil in Hit.
        discriminate.
Qed.

(** X5.  Right after a scan, with no filter, the export has a line for
    exactly the checkable rows of the tree: every regular row, no error
    marker. *)
Theorem fresh_export_lists_checkable_rows (root_folder : string) (fs : Fs)
    (ix : Index) :
  In ix (emitted_indices "" (snd (populate_tree root_folder fs))) <->
  exists it,
    itemFromIndex (snd (populate_tree root_folder fs)) ix = Some it /\
    isCheckable it = true.
Proof.
  assert (Hm : Forall as_scanned (snd (populate_tree root_folder fs))).
  { simpl. constructor; [apply scan_as_scanned | constructor]. }
  rewrite <- (all_on_path_emits_scanned ix _ Hm). split.
  - intros Hin. apply emitted_index_on_path in Hin.
    unfold counts_emitted in Hin. rewrite all_on_path_andb in Hin.
    apply andb_true_iff in Hin. apply Hin.
  - intros Hem. apply text_lines_indexed_complete.
    unfold counts_emitted. rewrite all_on_path_andb, Hem, andb_true_r.
    apply all_on_path_emits_scanned in Hem; [|exact Hm].
    destruct Hem as [it [Hit _]].
    eapply all_on_path_accepted; [exact Hit | apply row_accepted_empty].
Qed.

(** X6.  Copying right after a scan, with no filter, puts text on the
    clipboard exactly when [os.stat] of the root folder succeeded. *)
Theorem copy_after_scan (root_folder : string) (os_stat : option stat_result)
    (os_scandir : ScandirOutcome (DirEntry * Fs)) :
  copy_tree_to_clipboard ""
    (snd (populate_tree root_folder (FsAt os_stat os_scandir))) = None <->
  os_stat = None.
Proof.
  unfold copy_tree_to_clipboard.
  assert (Hcase : PyStr.is_empty
                    (PyStr.join_lines
                       (text_lines ""
                          (snd (populate_tree root_folder
                                  (FsAt os_stat os_scandir))))) = true <->
                  os_stat = None).
  { rewrite join_lines_is_empty by (intros l; apply text_lines_nonempty).
    rewrite text_lines_nil_iff.
    unfold populate_tree. cbn [snd]. rewrite add_folder_item_recursive_eq.
    destruct os_stat as [st|]; cbv zeta; cbn [fst]; split.
    - intros H. specialize (H _ (or_introl eq_refl) (row_accepted_empty _)).
      discriminate.
    - discriminate.
    - reflexivity.
    - intros _ it [<-|[]] _. reflexivity. }
  destruct Hcase as [H1 H2].
  destruct (PyStr.is_empty _) eqn:E.
  - split; [intros _; apply H1; reflexivity | reflexivity].
  - split; [discriminate|]. intros Hn. apply H2 in Hn. discriminate.
Qed.

(* ===================================================================== *)
(** * More on check-state changes *)
(* ===================================================================== *)

Lemma erase_states_eq (it : Item) :
  erase_states it =
  mkItem (text it) (full_path it) (isCheckable it) Unchecked
    (map erase_states (rows it)).
Proof. destruct it as [t p c s kids]. reflexivity. Qed.

Lemma erase_setCheckState (it : Item) (v : CheckState) :
  erase_states (setCheckState it v) = erase_states it.
Proof. rewrite !erase_states_eq. reflexivity. Qed.

Lemma erase_update_children (v : CheckState) (it : Item) :
  erase_states (update_children_checkstate it v) = erase_states it.
Proof.
  induction it as [t p c s rs IH] using Item_rows_ind.
  rewrite update_children_checkstate_eq, !erase_states_eq.
  cbn [setRows text full_path isCheckable rows]. f_equal.
  rewrite map_map. apply map_ext_in. intros k Hin.
  rewrite Forall_forall in IH. specialize (IH k Hin).
  unfold cascade_row.
  destruct (isCheckable k); [|reflexivity].
  destruct (hasChildren k);
    destruct (CheckState_eqb (checkState k) v);
    rewrite ?erase_setCheckState; auto.
Qed.

Lemma erase_set_checked_item (blocked : bool) (v : CheckState) (n : Item) :
  erase_states (set_checked_item blocked v n) = erase_states n.
Proof.
  unfold set_checked_item, checked_node.
  destruct (CheckState_eqb (checkState n) v); [reflexivity|].
  destruct blocked; [apply erase_setCheckState|].
  destruct (isCheckable n && hasChildren n);
    rewrite ?erase_update_children; apply erase_setCheckState.
Qed.

Lemma erase_update_row (f : Item -> Item) (r : nat) (l : list Item) :
  (forall x, erase_states (f x) = erase_states x) ->
  map erase_states (update_row f r l) = map erase_states l.
Proof.
  intros Hf. revert r. induction l as [|y l IH]; intros [|r]; simpl; auto.
  - rewrite Hf. reflexivity.
  - rewrite IH. reflexivity.
Qed.

Lemma erase_updateItem (f : Item -> Item) :
  (forall x, erase_states (f x) = erase_states x) ->
  forall node m,
    map erase_states (updateItem f node m) = map erase_states m.
Proof.
  intros Hf. induction node as [|r node IH]; intros m; [reflexivity|].
  destruct node as [|r' node].
  - cbn [updateItem]. apply erase_update_row. exact Hf.
  - rewrite updateItem_deeper. apply erase_update_row. intros x.
    rewrite !erase_states_eq.
    cbn [setRows text full_path isCheckable rows]. rewrite IH. reflexivity.
Qed.


(** X8.  [set_checked] changes check states only: with the states
    forgotten the model is what it was, so no row is added, removed or
    moved, and no text, path or checkable flag changes. *)
Theorem set_checked_changes_states_only (w : Window) (node : Index)
    (v : CheckState) :
  map erase_states (model (set_checked w node v)) = map erase_states (model w).
Proof.
  rewrite set_checked_model. apply erase_updateItem.
  intros x. apply erase_set_checked_item.
Qed.

Lemma cascade_row_checkable (v : CheckState) (c : Item) :
  isCheckable c = true ->
  cascade_row v c =
  mkItem (text c) (full_path c) true v (map (cascade_row v) (rows c)).
Proof.
  intros Hc. unfold cascade_row. rewrite Hc.
  destruct (hasChildren c) eqn:Hh.
  - rewrite update_children_checkstate_eq.
    destruct (CheckState_eqb (checkState c) v) eqn:He.
    + apply CheckState_eqb_eq in He. unfold setRows. rewrite Hc, He. reflexivity.
    + unfold setCheckState, setRows. simpl. rewrite Hc. reflexivity.
  - rewrite (hasChildren_false c Hh).
    destruct (CheckState_eqb (checkState c) v) eqn:He.
    + apply CheckState_eqb_eq in He. destruct c as [t p ck s kids].
      simpl in *. subst. apply hasChildren_false in Hh. simpl in Hh.
      subst. reflexivity.
    + destruct c as [t p ck s kids]. simpl in *. subst.
      apply hasChildren_false in Hh. simpl in Hh. subst. reflexivity.
Qed.

(** A second cascade overrides the first. *)
Lemma cascade_row_twice (v1 v2 : CheckState) (c : Item) :
  cascade_row v2 (cascade_row v1 c) = cascade_row v2 c.
Proof.
  induction c as [t p ck s rs IH] using Item_rows_ind.
  destruct ck.
  - rewrite (cascade_row_checkable v1) by reflexivity.
    rewrite !(cascade_row_checkable v2) by reflexivity.
    cbn [text full_path rows]. f_equal.
    rewrite map_map. apply map_ext_in. intros k Hin.
    rewrite Forall_forall in IH. exact (IH k Hin).
  - reflexivity.
Qed.

Lemma checked_node_checkable (v : CheckState) (n : Item) :
  isCheckable n = true ->
  checked_node n v =
  mkItem (text n) (full_path n) true v (map (cascade_row v) (rows n)).
Proof.
  intros Hc. unfold checked_node. rewrite Hc. cbn [andb].
  destruct (hasChildren n) eqn:Hh.
  - rewrite update_children_checkstate_eq. unfold setRows, setCheckState.
    simpl. rewrite Hc. reflexivity.
  - unfold setCheckState. rewrite (hasChildren_false n Hh), Hc. reflexivity.
Qed.

(** A second cascade from the same item overrides the first. *)
Lemma checked_node_twice (v1 v2 : CheckState) (n : Item) :
  checked_node (checked_node n v1) v2 = checked_node n v2.
Proof.
  destruct (isCheckable n) eqn:Hc.
  - rewrite (checked_node_checkable v1 n Hc).
    rewrite (checked_node_checkable v2 n Hc).
    rewrite checked_node_checkable by reflexivity.
    cbn [text full_path rows]. f_equal.
    rewrite map_map. apply map_ext. intros k. apply cascade_row_twice.
  - unfold checked_node. rewrite Hc. cbn [andb].
    change (isCheckable (setCheckState n v1)) with (isCheckable n).
    rewrite Hc. reflexivity.
Qed.

Lemma set_checked_item_twice (blocked : bool) (v1 v2 : CheckState) (n : Item) :
  v1 = v2 \/ checkState n <> v2 ->
  set_checked_item blocked v2 (set_checked_item blocked v1 n) =
  set_checked_item blocked v2 n.
Proof.
  intros Hv.
  destruct (set_checked_item_data blocked v1 n) as [_ [_ [_ Hs1]]].
  destruct (CheckState_eqb (checkState n) v1) eqn:E1.
  - apply CheckState_eqb_eq in E1.
    rewrite (set_checked_item_same blocked v1 n E1). reflexivity.
  - apply CheckState_eqb_neq in E1.
    destruct (CheckState_eqb v1 v2) eqn:E12.
    + apply CheckState_eqb_eq in E12. subst v2.
      apply set_checked_item_same. exact Hs1.
    + apply CheckState_eqb_neq in E12.
      assert (Hne : checkState n <> v2) by (destruct Hv; congruence).
      rewrite (set_checked_item_changed blocked v2 (set_checked_item blocked v1 n))
        by congruence.
      rewrite (set_checked_item_changed blocked v1 n E1).
      rewrite (set_checked_item_changed blocked v2 n Hne).
      destruct blocked; [reflexivity | apply checked_node_twice].
Qed.

(** X9.  Of two [set_checked] on the same item the last one decides,
    when it writes the same state as the first or a state other than the
    one the item had at the start: the model is the one the second alone
    would give.  In particular doing the same [set_checked] twice is
    doing it once. *)
Theorem set_checked_last_wins (w : Window) (node : Index) (n : Item)
    (v1 v2 : CheckState) :
  itemFromIndex (model w) node = Some n ->
  v1 = v2 \/ checkState n <> v2 ->
  model (set_checked (set_checked w node v1) node v2) =
  model (set_checked w node v2).
Proof.
  intros Hn Hv.
  rewrite (set_checked_model (set_checked w node v1)).
  rewrite set_checked_block, !set_checked_model, updateItem_compose.
  apply (updateItem_ext_at _ _ node (model w) n Hn).
  apply set_checked_item_twice. exact Hv.
Qed.

(** The model always holds exactly one top-level row. *)
Lemma reachable_one_row (w : Window) :
  reachable w -> exists x, model w = [x].
Proof.
  intros Hw.
  assert (Hlen : length (model w) = 1).
  { induction Hw as [root_folder fs | w node value Hw IH]; [reflexivity|].
    rewrite set_checked_model, updateItem_length. exact IH. }
  destruct (model w) as [|x [|y rest]]; try discriminate.
  exists x. reflexivity.
Qed.

(** X10.  Once the top-level row has been unchecked nothing is copied,
    whatever the filter and whatever the states of the rows below. *)
Theorem uncheck_root_copies_nothing (w : Window) (filter_text : string) :
  reachable w ->
  copy_tree_to_clipboard filter_text (model (set_checked w [0] Unchecked)) = None.
Proof.
  intros Hw.
  destruct (reachable_invariant w Hw) as [Hb _].
  destruct (reachable_one_row w Hw) as [x Hx].
  rewrite set_checked_model, Hb, Hx. cbn [updateItem update_row].
  unfold copy_tree_to_clipboard.
  rewrite text_lines_not_emitted; [reflexivity|].
  unfold emits.
  destruct (set_checked_item_data false Unchecked x) as [_ [_ [_ Hs]]].
  rewrite Hs. apply andb_false_r.
Qed.

(* ===================================================================== *)
(** * More on the filter *)
(* ===================================================================== *)

Lemma string_app_assoc (a b c : string) :
  ((a ++ b) ++ c)%string = (a ++ b ++ c)%string.
Proof. induction a as [|x a IH]; simpl; [reflexivity | rewrite IH; reflexivity]. Qed.

(** X13.  Without recursion: a row is visible exactly when the query is
    empty, or the lowered query occurs in the lowered name of the row
    itself or of some row below it. *)
Theorem is_visible_some_name_matches (n : Item) (q : string) :
  is_visible n q = true <->
  q = "" \/
  exists d, (d = n \/ descendant d n) /\
            PyStr.Substring (str_lower q) (str_lower (text d)).
Proof.
  unfold is_visible, set_filter_text.
  destruct (PyStr.is_empty q) eqn:Hq.
  { apply is_empty_true in Hq. subst q.
    rewrite (proj2 (str_lower_empty "") eq_refl).
    split; [auto | intros _; apply row_accepted_empty]. }
  assert (Hl : PyStr.is_empty (str_lower q) = false)
    by (rewrite lower_is_empty; exact Hq).
  assert (Hq' : q <> "") by (intros ->; discriminate).
  split.
  - intros H. right. revert H.
    induction n as [t p c s rs IH] using Item_rows_ind.
    rewrite row_accepted_eq, Hl. cbn [orb rows]. intros H.
    apply orb_true_iff in H. destruct H as [H | H].
    + eexists. split; [left; reflexivity|].
      apply text_matches_Substring in H; [exact H | exact Hl].
    + apply existsb_exists in H. destruct H as [k [Hin Hk]].
      rewrite Forall_forall in IH.
      destruct (IH k Hin Hk) as [d [Hd Hm]].
      exists d. split; [|exact Hm]. right.
      destruct Hd as [-> | Hd].
      * apply desc_row. exact Hin.
      * eapply desc_below; eassumption.
  - intros [H | [d [Hd Hm]]]; [contradiction|].
    assert (Hacc : row_accepted (str_lower q) d = true).
    { rewrite row_accepted_eq. apply orb_true_iff. left.
      apply orb_true_iff. right. apply text_matches_Substring; assumption. }
    destruct Hd as [-> | Hd]; [exact Hacc|].
    eapply row_accepted_upward; eassumption.
Qed.

(* ===================================================================== *)
(** * More on the scan: the order of the rows *)
(* ===================================================================== *)

Lemma key_ltb_irrefl (k : bool * string) : key_ltb k k = false.
Proof.
  destruct k as [b s]. unfold key_ltb. simpl.
  destruct b; apply string_ltb_irrefl.
Qed.

Lemma key_le_antisym (k1 k2 : bool * string) :
  key_le k1 k2 -> key_le k2 k1 -> k1 = k2.
Proof.
  destruct k1 as [b1 s1], k2 as [b2 s2]. unfold key_le, key_ltb. simpl.
  destruct b1, b2; try congruence; intros H21 H12;
    destruct (string_trichotomy s1 s2) as [H | [-> | H]]; congruence.
Qed.

(** Two sorted arrangements of the same elements, with no key occurring
    twice, are the same list. *)
Lemma sorted_lists_equal {A : Type} (key : A -> bool * string) (l1 : list A) :
  forall l2,
    StronglySorted (fun a b => key_le (key a) (key b)) l1 ->
    StronglySorted (fun a b => key_le (key a) (key b)) l2 ->
    Permutation l1 l2 ->
    NoDup (map key l1) ->
    l1 = l2.
Proof.
  induction l1 as [|x t1 IH]; intros l2 S1 S2 Hp Hnd.
  - apply Permutation_nil in Hp. congruence.
  - destruct l2 as [|y t2].
    { apply Permutation_sym, Permutation_nil in Hp. discriminate. }
    inversion S1 as [|? ? S1' F1]; subst.
    inversion S2 as [|? ? S2' F2]; subst.
    simpl in Hnd. inversion Hnd as [|? ? Hnot Hnd']; subst.
    assert (Hxy : x = y).
    { pose proof (Permutation_in x Hp (or_introl eq_refl)) as Hx.
      pose proof (Permutation_in y (Permutation_sym Hp) (or_introl eq_refl)) as Hy.
      destruct Hy as [Hy | Hy]; [exact Hy|].
      destruct Hx as [Hx | Hx]; [congruence|].
      exfalso. apply Hnot.
      rewrite Forall_forall in F1, F2.
      rewrite (key_le_antisym _ _ (F1 y Hy) (F2 x Hx)).
      apply in_map. exact Hy. }
    subst y. f_equal.
    apply IH; auto. eapply Permutation_cons_inv. exact Hp.
Qed.

Lemma sorted_unique {A : Type} (key : A -> bool * string) (l1 l2 : list A) :
  Permutation l1 l2 -> NoDup (map key l1) -> sorted key l1 = sorted key l2.
Proof.
  intros Hp Hnd. apply (sorted_lists_equal key).
  - apply sorted_StronglySorted.
  - apply sorted_StronglySorted.
  - apply perm_trans with l1; [apply sorted_perm|].
    apply perm_trans with l2; [exact Hp | apply Permutation_sym, sorted_perm].
  - eapply Permutation_NoDup; [|exact Hnd].
    apply Permutation_map, Permutation_sym, sorted_perm.
Qed.

(** X15.  The tree does not depend on the order in which [os.scandir]
    lists the entries, as long as no two entries have the same sort key
    (kind and lowered name). *)
Theorem scan_order_independent (current_path : string)
    (os_stat : option stat_result) (entries entries' : list (DirEntry * Fs)) :
  Permutation entries entries' ->
  NoDup (map (fun ef => sort_key (fst ef)) entries) ->
  add_folder_item_recursive current_path (FsAt os_stat (Listed entries)) =
  add_folder_item_recursive current_path (FsAt os_stat (Listed entries')).
Proof.
  intros Hp Hnd. rewrite !add_folder_item_recursive_eq.
  unfold scan_listing.
  rewrite (sorted_unique (fun ef => sort_key (fst ef)) entries entries' Hp Hnd).
  reflexivity.
Qed.

Lemma key_eqb_eq (k1 k2 : bool * string) : key_eqb k1 k2 = true <-> k1 = k2.
Proof.
  destruct k1 as [b1 s1], k2 as [b2 s2]. unfold key_eqb. simpl.
  rewrite andb_true_iff, Bool.eqb_true_iff, String.eqb_eq.
  split; [intros [-> ->]; reflexivity | intros H; inversion H; auto].
Qed.

Lemma insert_by_key_filter {A : Type} (key : A -> bool * string)
    (k : bool * string) (x : A) (l : list A) :
  filter (fun y => key_eqb (key y) k) (insert_by_key key x l) =
  filter (fun y => key_eqb (key y) k) (x :: l).
Proof.
  induction l as [|y l IH]; [reflexivity|].
  cbn [insert_by_key].
  destruct (key_ltb (key y) (key x)) eqn:E; [|reflexivity].
  cbn [filter] in *. rewrite IH.
  destruct (key_eqb (key x) k) eqn:Ex; [|reflexivity].
  destruct (key_eqb (key y) k) eqn:Ey; [|reflexivity].
  apply key_eqb_eq in Ex, Ey. rewrite Ex, Ey, key_ltb_irrefl in E.
  discriminate.
Qed.

(** X16.  [sorted] is stable in the scan: entries with the same sort
    key, such as two files whose names differ only in case, keep the
    order in which [os.scandir] listed them. *)
Theorem scan_sort_stable (entries : list (DirEntry * Fs)) (k : bool * string) :
  filter (fun ef => key_eqb (sort_key (fst ef)) k)
         (sorted (fun ef => sort_key (fst ef)) entries) =
  filter (fun ef => key_eqb (sort_key (fst ef)) k) entries.
Proof.
  induction entries as [|e entries IH]; [reflexivity|].
  cbn [sorted].
  rewrite (insert_by_key_filter (fun ef => sort_key (fst ef))).
  cbn [filter]. rewrite IH. reflexivity.
Qed.

Lemma basename_no_slash (s : string) :
  PyStr.has_slash s = false -> PyStr.basename s = s.
Proof.
  destruct s as [|c r]; [reflexivity|]. simpl.
  intros H. apply orb_false_iff in H. destruct H as [Hc Hr].
  rewrite Hr, Hc. reflexivity.
Qed.

Lemma has_slash_app_slash (a name : string) :
  PyStr.has_slash (a ++ String PyStr.slash name) = true.
Proof.
  induction a as [|c a IH]; simpl.
  - reflexivity.
  - rewrite IH. apply orb_true_r.
Qed.

Lemma basename_app_slash (a name : string) :
  PyStr.has_slash name = false ->
  PyStr.basename (a ++ String PyStr.slash name) = name.
Proof.
  intros Hn. induction a as [|c a IH].
  - simpl. rewrite Hn. reflexivity.
  - cbn [append PyStr.basename]. rewrite has_slash_app_slash. exact IH.
Qed.

Lemma ends_with_slash_split (a : string) :
  PyStr.ends_with_slash a = true ->
  exists a0, a = (a0 ++ String PyStr.slash "")%string.
Proof.
  induction a as [|c a IH]; [discriminate|].
  destruct a as [|c' a'].
  - simpl. intros H. apply Ascii.eqb_eq in H. subst. exists "". reflexivity.
  - intros H. destruct (IH H) as [a0 Ha0].
    exists (String c a0). simpl. rewrite <- Ha0. reflexivity.
Qed.

(** [basename(join(path, name))] is [name], for a name [os.scandir] can
    give: not empty and without a slash. *)
Lemma basename_join (a name : string) :
  name <> "" -> PyStr.has_slash name = false ->
  PyStr.is_empty (PyStr.join a name) = false /\
  PyStr.basename (PyStr.join a name) = name.
Proof.
  intros Hne Hns. destruct name as [|c rest]; [congruence|].
  pose proof Hns as Hns'. simpl in Hns'.
  apply orb_false_iff in Hns'. destruct Hns' as [Hc _].
  unfold PyStr.join. rewrite Hc.
  destruct (PyStr.is_empty a) eqn:Ea.
  - apply is_empty_true in Ea. subst a. simpl orb. cbn [append].
    split; [reflexivity | apply basename_no_slash; exact Hns].
  - cbn [orb]. destruct (PyStr.ends_with_slash a) eqn:Es.
    + destruct (ends_with_slash_split a Es) as [a0 ->].
      rewrite string_app_assoc. cbn [append].
      split; [|apply basename_app_slash; exact Hns].
      destruct a0; reflexivity.
    + change (a ++ "/" ++ String c rest)%string
        with (a ++ String PyStr.slash (String c rest))%string.
      split; [|apply basename_app_slash; exact Hns].
      destruct a; [discriminate | reflexivity].
Qed.

(** X17.  A listed subdirectory is shown by two nested rows: the row of
    the entry has exactly one row below it, made by the recursive call
    for the same path; when [os.stat] of that path succeeds the inner
    row is checkable, carries the same path and, for a name without a
    slash, the same text, and the directory's own entries come below the
    inner row. *)
Theorem directory_entry_rows_nested (current_path : string) (entry : DirEntry)
    (entry_st st : stat_result) (os_scandir : ScandirOutcome (DirEntry * Fs)) :
  entry_stat entry = Some entry_st ->
  entry_is_dir entry = true ->
  entry_name entry <> "" ->
  PyStr.has_slash (entry_name entry) = false ->
  let outer := fst (entry_row current_path (entry, FsAt (Some st) os_scandir)) in
  exists inner,
    rows outer = [inner] /\
    text outer = entry_name entry /\
    text inner = entry_name entry /\
    full_path outer = Some (PyStr.join current_path (entry_name entry)) /\
    full_path inner = full_path outer /\
    isCheckable inner = true /\
    inner = fst (add_folder_item_recursive
                   (PyStr.join current_path (entry_name entry))
                   (FsAt (Some st) os_scandir)).
Proof.
  intros Hst Hdir Hne Hns outer.
  destruct (basename_join current_path (entry_name entry) Hne Hns) as [He Hb].
  subst outer. unfold entry_row, scan_entry. cbn [fst snd].
  rewrite Hst, Hdir. cbn [fst rows text full_path].
  eexists. split; [reflexivity|].
  rewrite add_folder_item_recursive_eq. cbv zeta.
  cbn [fst text full_path isCheckable].
  unfold base_name_of. rewrite He, Hb. repeat split.
Qed.

(* ===================================================================== *)
(** * More on the export: the order of the lines *)
(* ===================================================================== *)

Lemma comes_before_app_l {A : Type} (l l' : list A) (a b : A) :
  comes_before l a b -> comes_before (l ++ l') a b.
Proof.
  intros [l1 [l2 [l3 ->]]]. exists l1, l2, (l3 ++ l').
  repeat (rewrite <- app_assoc; simpl). reflexivity.
Qed.

Lemma comes_before_app_r {A : Type} (l l' : list A) (a b : A) :
  comes_before l' a b -> comes_before (l ++ l') a b.
Proof.
  intros [l1 [l2 [l3 ->]]]. exists (l ++ l1), l2, l3.
  rewrite <- app_assoc. reflexivity.
Qed.

Lemma comes_before_first {A : Type} (l : list A) (a b : A) :
  In b l -> comes_before (a :: l) a b.
Proof.
  intros Hin. apply in_split in Hin. destruct Hin as [l2 [l3 ->]].
  exists [], l2, l3. reflexivity.
Qed.

Lemma app_same_length {A : Type} (a c b d : list A) :
  a ++ b = c ++ d -> length a = length c -> a = c.
Proof.
  revert c. induction a as [|x a IH]; intros [|y c] H Hlen;
    try discriminate; [reflexivity|].
  simpl in H, Hlen. inversion H; subst. f_equal. apply IH; [assumption | lia].
Qed.

Section ExportOrder.
Variable ft : string.

(** One call writes no index twice, and writes the index of an item
    before the indices of the items below it. *)
Let call_ordered (it : Item) : Prop :=
  forall sp row prefix last,
    NoDup (map fst (generate_indexed sp (mapFromSource ft row it) prefix last)) /\
    forall ix r rest,
      In (ix ++ r :: rest)
         (map fst (generate_indexed sp (mapFromSource ft row it) prefix last)) ->
      length sp < length ix ->
      comes_before
        (map fst (generate_indexed sp (mapFromSource ft row it) prefix last))
        ix (ix ++ r :: rest).

(** Every index the loop writes starts with the parent index followed by
    the source row of one of the proxy rows. *)
Lemma rows_loop_indexed_rows (prows : list ProxyItem) :
  Forall (fun p => exists r it, p = mapFromSource ft r it) prows ->
  forall sp prefix num k ix,
    In ix (map fst (rows_loop_indexed sp prefix num k prows)) ->
    exists r ix', ix = sp ++ r :: ix' /\ In r (map source_row_of prows).
Proof.
  intros Hp sp prefix num k ix Hin.
  apply in_map_iff in Hin. destruct Hin as [[ix0 line] [Heq Hin]].
  simpl in Heq. subst ix0.
  apply rows_loop_indexed_In in Hin. destruct Hin as [j [p [Hj Hin]]].
  apply nth_error_In in Hj.
  rewrite Forall_forall in Hp. destruct (Hp p Hj) as [r [it ->]].
  apply generate_indexed_sound in Hin. destruct Hin as [_ [ix' [-> _]]].
  exists r, ix'. split; [reflexivity|].
  apply in_map_iff. exists (mapFromSource ft r it).
  split; [rewrite mapFromSource_eq; reflexivity | exact Hj].
Qed.

Lemma rows_loop_indexed_ordered (prows : list ProxyItem) :
  Forall (fun p => exists r it, p = mapFromSource ft r it /\ call_ordered it)
         prows ->
  NoDup (map source_row_of prows) ->
  forall sp prefix num k,
    NoDup (map fst (rows_loop_indexed sp prefix num k prows)) /\
    forall ix r rest,
      In (ix ++ r :: rest) (map fst (rows_loop_indexed sp prefix num k prows)) ->
      length sp < length ix ->
      comes_before (map fst (rows_loop_indexed sp prefix num k prows))
        ix (ix ++ r :: rest).
Proof.
  induction 1 as [|p prows [r0 [it0 [-> Hc]]] Hrest IH];
    intros Hnd sp prefix num k.
  - split; [constructor | contradiction].
  - cbn [map] in Hnd. rewrite mapFromSource_eq in Hnd. cbn [source_row_of] in Hnd.
    inversion Hnd as [|? ? Hnot Hnd']; subst.
    destruct (Hc sp r0 prefix (k =? num - 1)) as [Hnd1 Hord1].
    destruct (IH Hnd' sp prefix num (S k)) as [Hnd2 Hord2].
    cbn [rows_loop_indexed]. rewrite map_app. split.
    + apply NoDup_app; [exact Hnd1 | exact Hnd2|].
      intros a Ha Hb.
      apply in_map_iff in Ha. destruct Ha as [[ix0 line] [Heq Ha]].
      simpl in Heq. subst ix0.
      apply generate_indexed_sound in Ha. destruct Ha as [_ [ixa [-> _]]].
      apply rows_loop_indexed_rows in Hb.
      * destruct Hb as [r [ixb [Heq Hr]]].
        apply app_inv_head in Heq. inversion Heq; subst. contradiction.
      * eapply Forall_impl; [|exact Hrest].
        intros q [r [it [-> _]]]. exists r, it. reflexivity.
    + intros ix r rest Hin Hlen. apply in_app_or in Hin.
      destruct Hin as [Hin | Hin].
      * apply comes_before_app_l. apply Hord1; assumption.
      * apply comes_before_app_r. apply Hord2; assumption.
Qed.

Lemma generate_indexed_ordered (it : Item) : call_ordered it.
Proof.
  induction it as [t p c s rs IH] using Item_rows_ind.
  intros sp row prefix last.
  rewrite mapFromSource_eq, generate_indexed_eq.
  destruct (emits (mkItem t p c s rs)); [|split; [constructor | contradiction]].
  cbn [map fst rows].
  assert (Hrows : Forall (fun p => exists r it,
                              p = mapFromSource ft r it /\ call_ordered it)
                         (proxy_rows_for ft rs)).
  { apply Forall_forall. intros q Hq. apply proxy_rows_for_In in Hq.
    destruct Hq as [r [it [-> [Hr _]]]]. exists r, it. split; [reflexivity|].
    rewrite Forall_forall in IH. apply IH. eapply nth_error_In. exact Hr. }
  assert (Hnd : NoDup (map source_row_of (proxy_rows_for ft rs))).
  { rewrite proxy_rows_for_source_rows. apply rows_in_view_NoDup. }
  destruct (rows_loop_indexed_ordered (proxy_rows_for ft rs) Hrows Hnd
              (sp ++ [row]) (prefix ++ indent last)
              (length (proxy_rows_for ft rs)) 0) as [Hnd' Hord].
  assert (Hform : forall x,
             In x (map fst
                     (rows_loop_indexed (sp ++ [row]) (prefix ++ indent last)
                        (length (proxy_rows_for ft rs)) 0
                        (proxy_rows_for ft rs))) ->
             exists r ix', x = (sp ++ [row]) ++ r :: ix').
  { intros x Hx. apply rows_loop_indexed_rows in Hx.
    - destruct Hx as [r [ix' [-> _]]]. exists r, ix'. reflexivity.
    - eapply Forall_impl; [|exact Hrows].
      intros q [r [it [-> _]]]. exists r, it. reflexivity. }
  split.
  - constructor; [|exact Hnd'].
    intros Hin. destruct (Hform _ Hin) as [r [ix' Heq]].
    apply (f_equal (@length nat)) in Heq.
    rewrite !length_app in Heq. simpl in Heq. lia.
  - intros ix r rest [Heq | Hin] Hlen.
    { apply (f_equal (@length nat)) in Heq.
      rewrite !length_app in Heq. simpl in Heq. lia. }
    destruct (Nat.eq_dec (length ix) (length (sp ++ [row]))) as [He | Hne].
    + destruct (Hform _ Hin) as [r' [ix' Heq]].
      apply app_same_length in Heq; [|exact He]. subst ix.
      apply comes_before_first. exact Hin.
    + destruct (Hord ix r rest Hin) as [l1 [l2 [l3 Hl]]].
      { rewrite length_app in *. simpl in *. lia. }
      exists ((sp ++ [row]) :: l1), l2, l3. rewrite Hl. reflexivity.
Qed.
End ExportOrder.

(** X18.  The export writes no item twice, and writes the line of an
    item after the lines of all the items above it. *)
Theorem export_in_preorder (filter_text : string) (m : Model) :
  NoDup (emitted_indices filter_text m) /\
  forall ix r rest,
    ix <> [] ->
    In (ix ++ r :: rest) (emitted_indices filter_text m) ->
    comes_before (emitted_indices filter_text m) ix (ix ++ r :: rest).
Proof.
  assert (Hrows : Forall (fun p => exists r it,
                              p = mapFromSource filter_text r it /\
                              forall sp row prefix last,
                                NoDup (map fst (generate_indexed sp
                                         (mapFromSource filter_text row it)
                                         prefix last)) /\
                                forall ix r rest,
                                  In (ix ++ r :: rest)
                                     (map fst (generate_indexed sp
                                        (mapFromSource filter_text row it)
                                        prefix last)) ->
                                  length sp < length ix ->
                                  comes_before
                                    (map fst (generate_indexed sp
                                       (mapFromSource filter_text row it)
                                       prefix last))
                                    ix (ix ++ r :: rest))
                         (proxy_rows_for filter_text m)).
  { apply Forall_forall. intros q Hq. apply proxy_rows_for_In in Hq.
    destruct Hq as [r [it [-> _]]]. exists r, it. split; [reflexivity|].
    apply generate_indexed_ordered. }
  assert (Hnd : NoDup (map source_row_of (proxy_rows_for filter_text m))).
  { rewrite proxy_rows_for_source_rows. apply rows_in_view_NoDup. }
  destruct (rows_loop_indexed_ordered filter_text
              (proxy_rows_for filter_text m) Hrows Hnd
              [] "" (length (proxy_rows_for filter_text m)) 0) as [H1 H2].
  split; [exact H1|].
  intros ix r rest Hix Hin. apply H2; [exact Hin|].
  destruct ix; [congruence | simpl; lia].
Qed.
(* ===================================================================== *)
(** * More on check-state changes: separate subtrees, the top row *)
(* ===================================================================== *)

Lemma update_row_commute (f g : Item -> Item) (r1 r2 : nat) (l : list Item) :
  r1 <> r2 ->
  update_row f r1 (update_row g r2 l) = update_row g r2 (update_row f r1 l).
Proof.
  revert r1 r2. induction l as [|y l IH]; intros [|r1] [|r2] Hne; simpl; auto.
  - congruence.
  - rewrite IH; [reflexivity | congruence].
Qed.

(** [updateItem] as one [update_row] at the first row of the index. *)
Lemma updateItem_cons (f : Item -> Item) (r : nat) (node : Index)
    (m : list Item) :
  updateItem f (r :: node) m =
  update_row (fun it =>
                match node with
                | [] => f it
                | _ :: _ => setRows it (updateItem f node (rows it))
                end) r m.
Proof. destruct node; reflexivity. Qed.

Lemma updateItem_commute (f g : Item -> Item) (a : Index) :
  forall (b : Index) (m : list Item),
    ~ at_or_below a b -> ~ at_or_below b a ->
    updateItem f a (updateItem g b m) = updateItem g b (updateItem f a m).
Proof.
  induction a as [|r1 a IH]; intros b m Hab Hba.
  { exfalso. apply Hab. exists b. reflexivity. }
  destruct b as [|r2 b].
  { exfalso. apply Hba. exists (r1 :: a). reflexivity. }
  rewrite !updateItem_cons.
  destruct (Nat.eq_dec r1 r2) as [<-|Hne]; [|apply update_row_commute; exact Hne].
  rewrite !update_row_compose. apply update_row_ext_at. intros x _.
  destruct a as [|r1' a].
  { exfalso. apply Hab. exists b. reflexivity. }
  destruct b as [|r2' b].
  { exfalso. apply Hba. exists (r1' :: a). reflexivity. }
  unfold setRows. cbn [text full_path isCheckable checkState rows].
  f_equal. apply IH.
  - intros [rest Hrest]. apply Hab. exists rest. simpl. rewrite Hrest. reflexivity.
  - intros [rest Hrest]. apply Hba. exists rest. simpl. rewrite Hrest. reflexivity.
Qed.

(** X19.  Check-state changes in separate subtrees do not interfere:
    when neither item lies at or below the other, the two [set_checked]
    give the same model in either order. *)
Theorem set_checked_separate_commute (w : Window) (a b : Index)
    (va vb : CheckState) :
  ~ at_or_below a b -> ~ at_or_below b a ->
  model (set_checked (set_checked w a va) b vb) =
  model (set_checked (set_checked w b vb) a va).
Proof.
  intros Hab Hba.
  rewrite (set_checked_model (set_checked w a va)).
  rewrite (set_checked_model (set_checked w b vb)).
  rewrite !set_checked_block, !set_checked_model.
  apply updateItem_commute; assumption.
Qed.

Lemma row_accepted_erase (ft : string) (it : Item) :
  row_accepted ft (erase_states it) = row_accepted ft it.
Proof.
  induction it as [t p c s rs IH] using Item_rows_ind.
  rewrite (row_accepted_eq ft (erase_states _)), erase_states_eq, row_accepted_eq.
  cbn [text rows]. unfold text_matches. cbn [text]. f_equal.
  induction IH as [|k rs Hk _ IHrs]; [reflexivity|].
  simpl. rewrite Hk, IHrs. reflexivity.
Qed.

Lemma itemFromIndex_erase (ix : Index) :
  forall m : list Item,
    itemFromIndex (map erase_states m) ix =
    option_map erase_states (itemFromIndex m ix).
Proof.
  induction ix as [|r ix IH]; intros m; [reflexivity|].
  cbn [itemFromIndex]. rewrite nth_error_map.
  destruct (nth_error m r) as [x|]; [|reflexivity].
  cbn [option_map]. destruct ix as [|r' ix]; [reflexivity|].
  rewrite erase_states_eq. cbn [rows]. apply IH.
Qed.

(** In a tree where every checkable item is checked, the items with all
    of the path emitted are the checkable ones. *)
Lemma all_on_path_emits_checked (ix : Index) :
  forall m : list Item,
    Forall well_formed m ->
    (forall ix' it, itemFromIndex m ix' = Some it ->
                    isCheckable it = true -> checkState it = Checked) ->
    (all_on_path emits m ix = true <->
     exists it, itemFromIndex m ix = Some it /\ isCheckable it = true).
Proof.
  induction ix as [|r ix IH]; intros m Hm Hall.
  - split; [discriminate | intros [it [H _]]; discriminate].
  - cbn [all_on_path itemFromIndex].
    destruct (nth_error m r) as [x|] eqn:Hr;
      [|split; [discriminate | intros [it [H _]]; discriminate]].
    assert (Hx : well_formed x).
    { rewrite Forall_forall in Hm. apply Hm. eapply nth_error_In; eassumption. }
    apply well_formed_eq in Hx. destruct Hx as [_ [Hno Hrows]].
    assert (Hxs : isCheckable x = true -> checkState x = Checked).
    { apply (Hall [r]). cbn [itemFromIndex]. rewrite Hr. reflexivity. }
    destruct ix as [|r' ix].
    + rewrite andb_true_r. unfold emits. split.
      * intros H. apply andb_true_iff in H. exists x. tauto.
      * intros [it [Heq Hc]]. inversion Heq; subst.
        rewrite Hc, (Hxs Hc). reflexivity.
    + assert (Hbelow : forall ix' it,
                 itemFromIndex (rows x) ix' = Some it ->
                 isCheckable it = true -> checkState it = Checked).
      { intros ix' it Hit. destruct ix' as [|r2 ix']; [discriminate|].
        apply (Hall (r :: r2 :: ix')). cbn [itemFromIndex]. rewrite Hr.
        exact Hit. }
      rewrite andb_true_iff, (IH (rows x) Hrows Hbelow). split; [tauto|].
      intros Hex. split; [|exact Hex].
      destruct Hex as [it [Hit _]]. unfold emits.
      destruct (isCheckable x) eqn:Hc.
      * rewrite (Hxs eq_refl). reflexivity.
      * rewrite (Hno eq_refl), itemFromIndex_nil in Hit. discriminate.
Qed.

(** X20.  After the top-level row, in another state before, has been
    set to [Checked], whatever was checked or unchecked below it, the
    export has a line for exactly the checkable rows that pass the
    filter. *)
Theorem check_root_exports_all_checkable (w : Window) (filter_text : string)
    (root : Item) (ix : Index) :
  reachable w ->
  itemFromIndex (model w) [0] = Some root ->
  checkState root <> Checked ->
  In ix (emitted_indices filter_text (model (set_checked w [0] Checked))) <->
  exists it,
    itemFromIndex (model w) ix = Some it /\
    isCheckable it = true /\ row_accepted filter_text it = true.
Proof.
  intros Hw Hroot Hne.
  destruct (reachable_invariant w Hw) as [Hb Hm].
  destruct (reachable_one_row w Hw) as [x Hx].
  assert (Hw' : reachable (set_checked w [0] Checked)) by (constructor; exact Hw).
  destruct (reachable_invariant _ Hw') as [_ Hm'].
  set (m' := model (set_checked w [0] Checked)) in *.
  assert (Herase : forall i,
             option_map erase_states (itemFromIndex m' i) =
             option_map erase_states (itemFromIndex (model w) i)).
  { intros i. rewrite <- !itemFromIndex_erase. subst m'.
    rewrite set_checked_model.
    rewrite (erase_updateItem _ (erase_set_checked_item _ _)). reflexivity. }
  assert (Hchecked : forall i it, itemFromIndex m' i = Some it ->
                                  isCheckable it = true -> checkState it = Checked).
  { intros i it Hit Hc.
    pose proof (Herase i) as He. rewrite Hit in He.
    destruct (itemFromIndex (model w) i) as [d|] eqn:Hd; [|discriminate].
    simpl in He. inversion He as [He'].
    rewrite !erase_states_eq in He'. inversion He' as [[Ht Hp Hck Hr]].
    assert (Hbelow : at_or_below [0] i).
    { destruct i as [|r i]; [discriminate|].
      rewrite Hx in Hd. cbn [itemFromIndex] in Hd.
      destruct r as [|r]; [exists i; reflexivity|].
      destruct r; discriminate. }
    destruct (set_checked_descendant w [0] i root d Checked
                Hb Hm Hroot Hne Hbelow Hd)
      as [d' [Hd' [Hs _]]]; [congruence|].
    fold m' in Hd'. congruence. }
  split.
  - intros Hin. apply emitted_index_on_path in Hin.
    unfold counts_emitted in Hin. rewrite all_on_path_andb in Hin.
    apply andb_true_iff in Hin. destruct Hin as [Hacc Hem].
    apply all_on_path_lookup in Hacc. destruct Hacc as [it' [Hit' Hacc]].
    apply (all_on_path_emits_checked ix m' Hm' Hchecked) in Hem.
    destruct Hem as [it2 [Hit2 Hc]].
    assert (it2 = it') by congruence. subst it2.
    pose proof (Herase ix) as He. rewrite Hit' in He.
    destruct (itemFromIndex (model w) ix) as [d|]; [|discriminate].
    simpl in He. inversion He as [He'].
    exists d. split; [reflexivity|]. split.
    + rewrite !erase_states_eq in He'. inversion He'. congruence.
    + rewrite <- row_accepted_erase, <- He', row_accepted_erase. exact Hacc.
  - intros [d [Hd [Hc Hacc]]].
    pose proof (Herase ix) as He. rewrite Hd in He.
    destruct (itemFromIndex m' ix) as [it'|] eqn:Hit'; [|discriminate].
    simpl in He. inversion He as [He'].
    apply text_lines_indexed_complete.
    unfold counts_emitted. rewrite all_on_path_andb. apply andb_true_iff. split.
    + eapply all_on_path_accepted; [exact Hit'|].
      rewrite <- row_accepted_erase, He', row_accepted_erase. exact Hacc.
    + apply (all_on_path_emits_checked ix m' Hm' Hchecked).
      exists it'. split; [exact Hit'|].
      rewrite !erase_states_eq in He'. inversion He'. congruence.
Qed.

End Proofs.

(* ===================================================================== *)
(** * The project directory: the round trip (C4) and the examples *)
(* ===================================================================== *)

(** From here on the library is the one for ASCII text; every name in the
    examples is ASCII. *)
#[local] Existing Instance ascii_library.

(** Membership in a list that evaluates to explicit elements. *)
Ltac in_explicit_list :=
  vm_compute; repeat (first [left; reflexivity | right]).

(** C4 (as the code has it).  Scanning the project directory and
    exporting with everything checked and no filter gives first the line
    of the scanned root directory itself, and under it, indented by the
    blank extension, the entries in the order of the sorted view, which
    is descending by name: the line of [sub], then the lines of what lies
    below [sub], the last of them the line of [c.txt], then [b.txt] and,
    last, [a.txt]. *)
Theorem C4_round_trip (root_folder : string) :
  exists below_sub : list string,
    text_lines "" (snd (populate_tree root_folder Example.project)) =
      ("└─ " ++ base_name_of root_folder)%string ::
      "   ├─ sub" :: below_sub ++ ["   ├─ b.txt"; "   └─ a.txt"] /\
    Forall (fun l => prefix "   │  " l = true) below_sub /\
    exists pre, last below_sub "" = (pre ++ "└─ c.txt")%string.
Proof.
  exists [("   │  └─ " ++ base_name_of (PyStr.join root_folder "sub"))%string;
          "   │     └─ c.txt"].
  split; [reflexivity|]. split.
  - repeat constructor.
  - exists "   │     ". reflexivity.
Qed.

(** C4, the claim as written, fails: the export of the scanned project
    is not the four lines; it starts with the line of the root
    directory. *)
Lemma C4_counterexample :
  text_lines "" (model Example.scanned) <>
    ["├─ sub"; "│  └─ c.txt"; "├─ a.txt"; "└─ b.txt"] /\
  hd_error (text_lines "" (model Example.scanned)) = Some "└─ project" /\
  length (text_lines "" (model Example.scanned)) = 6.
Proof.
  split; [|split; vm_compute; reflexivity].
  vm_compute. discriminate.
Qed.

(** C1, the claim as written, fails: for a root path that does not
    exist, [populate_tree] reports success and the model holds a row. *)
Lemma C1_counterexample :
  populate_tree "/no/such/dir" (FsAt None RaisesOtherError) =
    (true, [access_error_item "dir"]).
Proof. reflexivity. Qed.

(** C2, the claim as written, fails: after unchecking [sub] and checking
    [c.txt] again, [c.txt] is checkable, checked and passes the empty
    filter, and yet the export has no line for it. *)
Lemma C2_counterexample :
  let w := set_checked (set_checked Example.scanned [0; 0] Unchecked)
             [0; 0; 0; 0] Checked in
  option_map text (itemFromIndex (model w) [0; 0]) = Some "sub" /\
  option_map checkState (itemFromIndex (model w) [0; 0]) = Some Unchecked /\
  option_map text (itemFromIndex (model w) [0; 0; 0; 0]) = Some "c.txt" /\
  option_map emits (itemFromIndex (model w) [0; 0; 0; 0]) = Some true /\
  option_map (row_accepted "") (itemFromIndex (model w) [0; 0; 0; 0]) = Some true /\
  ~ In [0; 0; 0; 0] (emitted_indices "" (model w)) /\
  text_lines "" (model w) = ["└─ project"; "   ├─ b.txt"; "   └─ a.txt"].
Proof.
  repeat split; try (vm_compute; reflexivity).
  intros Hin. vm_compute in Hin.
  repeat (destruct Hin as [Hin | Hin]; [discriminate|]). exact Hin.
Qed.

(** C3, the claim as written, fails: with [a.txt] unchecked, [b.txt] is
    the last sibling that is emitted and still gets the connector of a
    sibling that is not last, because [a.txt] comes after it in the view
    and passes the filter. *)
Lemma C3_counterexample : ~ lastness_rule counts_emitted.
Proof.
  intros H.
  specialize (H "" (model (set_checked Example.scanned [0; 1] Unchecked))
                [0; 2] "   ├─ b.txt").
  assert (Hin : In ([0; 2], "   ├─ b.txt")
                   (text_lines_indexed ""
                      (model (set_checked Example.scanned [0; 1] Unchecked))))
    by in_explicit_list.
  apply H in Hin. vm_compute in Hin. discriminate.
Qed.

(** C5, the claim as written, fails: with [sub] unchecked and [c.txt]
    below it checked again, writing [Unchecked] into [sub] once more
    changes nothing, and the checkable [c.txt] below it stays checked. *)
Lemma C5_counterexample :
  let w := set_checked (set_checked Example.scanned [0; 0] Unchecked)
             [0; 0; 0; 0] Checked in
  reachable w /\
  option_map text (itemFromIndex (model w) [0; 0]) = Some "sub" /\
  option_map checkState (itemFromIndex (model w) [0; 0]) = Some Unchecked /\
  at_or_below [0; 0] [0; 0; 0; 0] /\
  option_map text (itemFromIndex (model w) [0; 0; 0; 0]) = Some "c.txt" /\
  option_map isCheckable (itemFromIndex (model w) [0; 0; 0; 0]) = Some true /\
  option_map checkState
    (itemFromIndex (model (set_checked w [0; 0] Unchecked)) [0; 0; 0; 0])
    = Some Checked.
Proof.
  intros w. split; [apply reach_set, reach_set, reach_scan|].
  do 2 (split; [vm_compute; reflexivity|]).
  split; [exists [0; 0]; reflexivity|].
  repeat split; vm_compute; reflexivity.
Qed.

(* ===================================================================== *)
(** * The theorems at work on the examples *)
(* ===================================================================== *)

Lemma C7_visible_upward_witness :
  descendant Example.main_py Example.src /\
  is_visible Example.main_py "MAIN" = true /\
  is_visible Example.src "MAIN" = true.
Proof.
  assert (Hd : descendant Example.main_py Example.src).
  { eapply desc_below; [left; reflexivity|].
    apply desc_row. left; reflexivity. }
  split; [exact Hd|]. split; [reflexivity|].
  apply (C7_visible_upward "MAIN" Example.main_py Example.src Hd).
  reflexivity.
Defined.

Lemma C2_unchecked_hides_subtree_witness :
  let m := model (set_checked (set_checked Example.scanned [0; 0] Unchecked)
                    [0; 0; 0; 0] Checked) in
  option_map emits (itemFromIndex m [0; 0]) = Some false /\
  ~ In [0; 0; 0; 0] (emitted_indices "" m).
Proof.
  intros m. split; [vm_compute; reflexivity|].
  eapply (C2_unchecked_hides_subtree "" m [0; 0] [0; 0; 0; 0]).
  - vm_compute. reflexivity.
  - reflexivity.
  - exists [0; 0]. reflexivity.
Defined.

Lemma C3_last_among_filtered_witness :
  let m := model (set_checked Example.scanned [0; 1] Unchecked) in
  In ([0; 2], "   ├─ b.txt") (text_lines_indexed "" m) /\
  expected_line (counts_filtered "") m "" [0; 2] = Some "   ├─ b.txt".
Proof.
  intros m.
  assert (Hin : In ([0; 2], "   ├─ b.txt") (text_lines_indexed "" m))
    by in_explicit_list.
  split; [exact Hin|].
  exact (C3_last_among_filtered "" m [0; 2] "   ├─ b.txt" Hin).
Defined.

Lemma C5_set_checked_cascades_witness :
  reachable Example.scanned /\
  option_map text (itemFromIndex (model Example.scanned) [0; 0]) = Some "sub" /\
  option_map checkState (itemFromIndex (model Example.scanned) [0; 0])
    = Some Checked /\
  option_map checkState
    (itemFromIndex (model (set_checked Example.scanned [0; 0] Unchecked))
       [0; 0; 0; 0]) = Some Unchecked.
Proof.
  assert (Hr : reachable Example.scanned) by apply reach_scan.
  split; [exact Hr|]. do 2 (split; [vm_compute; reflexivity|]).
  destruct (C5_set_checked_cascades Example.scanned [0; 0]
              (mkItem "sub" (Some "/home/user/project/sub") true Checked
                 [mkItem "sub" (Some "/home/user/project/sub") true Checked
                    [mkItem "c.txt" (Some "/home/user/project/sub/c.txt")
                       true Checked []]])
              Unchecked Hr) as [_ [Hbelow _]].
  - vm_compute. reflexivity.
  - destruct (Hbelow ltac:(discriminate) [0; 0; 0; 0]
                (mkItem "c.txt" (Some "/home/user/project/sub/c.txt")
                   true Checked []))
      as [d' [Hd' [Hs _]]].
    + exists [0; 0]. reflexivity.
    + vm_compute. reflexivity.
    + reflexivity.
    + rewrite Hd'. simpl. rewrite Hs. reflexivity.
Defined.

Lemma C10_error_markers_not_exported_witness :
  reachable Example.guarded_scanned /\
  option_map error_marker
    (itemFromIndex (model Example.guarded_scanned) [0; 1; 0; 0]) = Some true /\
  forall ix,
    In ix (emitted_indices "" (model Example.guarded_scanned)) ->
    exists it,
      itemFromIndex (model Example.guarded_scanned) ix = Some it /\
      isCheckable it = true /\ checkState it = Checked /\
      error_marker it = false.
Proof.
  assert (Hr : reachable Example.guarded_scanned) by apply reach_scan.
  split; [exact Hr|]. split; [vm_compute; reflexivity|].
  apply (C10_error_markers_not_exported Example.guarded_scanned "" Hr).
Defined.

(** The unreadable directory of the guarded example: its row, the marker
    below it, and the rows of its siblings, in the export. *)
Example guarded_export :
  text_lines "" (model Example.guarded_scanned) =
    ["└─ data"; "   ├─ secret"; "   │  └─ secret";
     "   ├─ logs"; "   │  └─ logs"; "   │     └─ x.log"; "   └─ gone"].
Proof. vm_compute. reflexivity. Qed.

Lemma scan_leaves_rows_checked_or_marked_witness :
  itemFromIndex (snd (populate_tree Example.guarded_root Example.guarded))
    [0; 1; 0; 0] = Some perm_denied_item /\
  (checkState perm_denied_item = Unchecked /\
   full_path perm_denied_item = None /\ rows perm_denied_item = []).
Proof.
  assert (H : itemFromIndex
                (snd (populate_tree Example.guarded_root Example.guarded))
                [0; 1; 0; 0] = Some perm_denied_item)
    by (vm_compute; reflexivity).
  split; [exact H|].
  exact (scan_leaves_rows_checked_or_marked Example.guarded_root Example.guarded
           [0; 1; 0; 0] perm_denied_item H).
Defined.


Lemma set_checked_last_wins_witness :
  option_map checkState (itemFromIndex (model Example.scanned) [0; 0])
    = Some Checked /\
  model (set_checked (set_checked Example.scanned [0; 0] PartiallyChecked)
           [0; 0] Unchecked) =
  model (set_checked Example.scanned [0; 0] Unchecked).
Proof.
  split; [vm_compute; reflexivity|].
  apply (set_checked_last_wins Example.scanned [0; 0]
           (mkItem "sub" (Some "/home/user/project/sub") true Checked
              [mkItem "sub" (Some "/home/user/project/sub") true Checked
                 [mkItem "c.txt" (Some "/home/user/project/sub/c.txt")
                    true Checked []]])
           PartiallyChecked Unchecked).
  - vm_compute. reflexivity.
  - right. discriminate.
Defined.

Lemma uncheck_root_copies_nothing_witness :
  reachable (set_checked Example.scanned [0; 1] Unchecked) /\
  copy_tree_to_clipboard "txt"
    (model (set_checked (set_checked Example.scanned [0; 1] Unchecked)
              [0] Unchecked)) = None.
Proof.
  assert (H : reachable (set_checked Example.scanned [0; 1] Unchecked))
    by (apply reach_set, reach_scan).
  split; [exact H|].
  exact (uncheck_root_copies_nothing _ "txt" H).
Defined.

Lemma scan_order_independent_witness :
  let a := Example.file "a.txt" 100 in
  let b := Example.file "b.txt" 2048 in
  let s := Example.dir "sub" [Example.file "c.txt" 12] in
  add_folder_item_recursive Example.project_root
    (FsAt (Some (Example.stat_of 4096)) (Listed [b; s; a])) =
  add_folder_item_recursive Example.project_root
    (FsAt (Some (Example.stat_of 4096)) (Listed [a; b; s])).
Proof.
  intros a b s.
  apply scan_order_independent.
  - apply Permutation_sym.
    exact (Permutation_cons_app [b; s] [] a (Permutation_refl [b; s])).
  - simpl. repeat constructor; simpl; intuition discriminate.
Defined.

Lemma directory_entry_rows_nested_witness :
  let sub := Example.dir "sub" [Example.file "c.txt" 12] in
  exists inner,
    rows (fst (entry_row Example.project_root sub)) = [inner] /\
    text inner = "sub" /\
    full_path inner = Some "/home/user/project/sub" /\
    option_map text (nth_error (rows inner) 0) = Some "c.txt".
Proof.
  intros sub.
  destruct (directory_entry_rows_nested Example.project_root (fst sub)
              (Example.stat_of 4096) (Example.stat_of 4096)
              (Listed [Example.file "c.txt" 12]))
    as [inner [Hrows [_ [Ht [Hp [Hpi [_ Hinner]]]]]]].
  - reflexivity.
  - reflexivity.
  - discriminate.
  - reflexivity.
  - exists inner. split; [exact Hrows|]. split; [exact Ht|].
    split; [rewrite Hpi; exact Hp|].
    rewrite Hinner. vm_compute. reflexivity.
Defined.

Lemma set_checked_separate_commute_witness :
  model (set_checked (set_checked Example.scanned [0; 0] Unchecked)
           [0; 1] PartiallyChecked) =
  model (set_checked (set_checked Example.scanned [0; 1] PartiallyChecked)
           [0; 0] Unchecked).
Proof.
  apply set_checked_separate_commute.
  - intros [rest H]. inversion H.
  - intros [rest H]. inversion H.
Defined.

Lemma check_root_exports_all_checkable_witness :
  let w := set_checked Example.scanned [0] Unchecked in
  reachable w /\
  option_map checkState (itemFromIndex (model w) [0]) = Some Unchecked /\
  ~ In [0; 0; 0; 0] (emitted_indices "" (model w)) /\
  In [0; 0; 0; 0] (emitted_indices "" (model (set_checked w [0] Checked))).
Proof.
  intros w.
  assert (H : reachable w) by (apply reach_set, reach_scan).
  split; [exact H|]. split; [vm_compute; reflexivity|]. split.
  - intros Hin. vm_compute in Hin. exact Hin.
  - eapply (check_root_exports_all_checkable w "" _ [0; 0; 0; 0] H).
    + vm_compute. reflexivity.
    + discriminate.
    + eexists. split; [vm_compute; reflexivity|]. split; reflexivity.
Defined.
